(** * docbaseview: the link rewriter, the name index and the request handlers

    A shallow embedding of [server.go].  Go strings are byte sequences, so
    text is a [list ascii]; the maps of the program are [gmap]s; the file
    system and the libraries the program calls are data and section
    variables. *)

From Stdlib Require Import Ascii String ZArith.
From stdpp Require Import gmap strings list.

Open Scope Z_scope.
Open Scope nat_scope.

(** ** Text *)

(** [bytes] is Go's [[]byte("...")]: the UTF-8 bytes of a literal. *)
Definition bytes (s : string) : list ascii := list_ascii_of_string s.

(** The double quote, which the replacement texts contain. *)
Definition dq : ascii := "034"%char.

(** [strings.HasPrefix]. *)
Fixpoint HasPrefix (s p : list ascii) {struct p} : bool :=
  match p, s with
  | [], _ => true
  | a :: p', b :: s' => Ascii.eqb a b && HasPrefix s' p'
  | _ :: _, [] => false
  end.

(** [w] occurs in [s] as a contiguous substring ([strings.Contains]). *)
Definition contains (w s : list ascii) : Prop := ∃ a b, s = a ++ w ++ b.

Fixpoint Contains (s w : list ascii) : bool :=
  HasPrefix s w || match s with [] => false | _ :: t => Contains t w end.

(** ** Leftmost, non-overlapping replacement

    [strings.ReplaceAll] and [Regexp.ReplaceAllString] share one loop: walk
    the text from the left; where the matcher reports a match, emit the
    replacement and continue after the match; elsewhere copy one byte.  The
    matcher gives the replacement and the number of bytes matched.  [skip]
    counts the bytes of the current match that are still to be passed over.
    No pattern of this program matches the empty string and
    [strings.ReplaceAll] is only called with a non-empty [old], so a
    zero-length report is a case the program never reaches; it copies the
    byte. *)
Section Scan.
Variable matcher : list ascii → option (list ascii * nat).

Fixpoint scan_from (skip : nat) (s : list ascii) : list ascii :=
  match s with
  | [] => []
  | c :: t =>
      match skip with
      | S k => scan_from k t
      | O =>
          match matcher s with
          | Some (r, S n) => r ++ scan_from n t
          | _ => c :: scan_from 0 t
          end
      end
  end.

Definition scan (s : list ascii) : list ascii := scan_from 0 s.

(** No match starts inside [w], whatever follows it. *)
Definition quiet (w : list ascii) : Prop :=
  ∀ w1 w2 y, w = w1 ++ w2 → w2 ≠ [] → matcher (w2 ++ y) = None.

(** A match that starts before [w] ends before [w]. *)
Definition stops_before (w : list ascii) : Prop :=
  ∀ x y r n, x ≠ [] → matcher (x ++ w ++ y) = Some (r, n) → n ≤ length x.

(** From every position of [a] the matcher reports the same with and without
    [z] after it, and stays inside [a]. *)
Definition splits_at (a z : list ascii) : Prop :=
  ∀ a1 a2, a = a1 ++ a2 → a2 ≠ [] →
    matcher (a2 ++ z) = matcher a2 ∧
    ∀ r n, matcher a2 = Some (r, n) → n ≤ length a2.
End Scan.

(** [strings.ReplaceAll(s, old, new)]. *)
Definition lit_matcher (old new s : list ascii) : option (list ascii * nat) :=
  if HasPrefix s old then Some (new, length old) else None.

Definition ReplaceAll (s old new : list ascii) : list ascii :=
  scan (lit_matcher old new) s.

(** ** Regular expressions

    The fragment of RE2 syntax that the four patterns of the program use:
    literal text, greedy [+] and [*] over a character class, one capture
    group, concatenation.  [exec r s] lists the ways [r] matches a prefix of
    [s], most preferred first, as the text captured by the group (if it took
    part) and the text left over: the order a backtracking search tries
    them in, which is the match Go's [regexp] reports at a given start. *)
Inductive regex : Type :=
| Lit (l : list ascii)
| Plus (cls : ascii → bool)
| Star (cls : ascii → bool)
| Group (r : regex)
| Cat (r1 r2 : regex).

(** What is left after a greedy run over [cls]: longest run first, down to
    the empty run. *)
Fixpoint greedy (cls : ascii → bool) (s : list ascii) : list (list ascii) :=
  match s with
  | c :: t => if cls c then greedy cls t ++ [s] else [s]
  | [] => [[]]
  end.

Definition first_capture (c1 c2 : option (list ascii)) : option (list ascii) :=
  match c1 with Some _ => c1 | None => c2 end.

Fixpoint exec (r : regex) (s : list ascii)
  : list (option (list ascii) * list ascii) :=
  match r with
  | Lit l => if HasPrefix s l then [(None, drop (length l) s)] else []
  | Plus cls =>
      match s with
      | c :: t => if cls c then (λ rest, (None, rest)) <$> greedy cls t else []
      | [] => []
      end
  | Star cls => (λ rest, (None, rest)) <$> greedy cls s
  | Group r' =>
      (λ m, (Some (take (length s - length m.2) s), m.2)) <$> exec r' s
  | Cat r1 r2 =>
      m1 ← exec r1 s;
      (λ m2, (first_capture m1.1 m2.1, m2.2)) <$> exec r2 m1.2
  end.

(** No literal and no class of [r] takes the byte [c]. *)
Fixpoint rejects (r : regex) (c : ascii) : bool :=
  match r with
  | Lit l => negb (existsb (Ascii.eqb c) l)
  | Plus cls | Star cls => negb (cls c)
  | Group r' => rejects r' c
  | Cat r1 r2 => rejects r1 c && rejects r2 c
  end.

(** A replacement template, as [Regexp.Expand] reads it: [$1] is the
    longest run of letters, digits and underscores after the dollar sign, so
    [$1.md] is group 1 followed by the text [.md]. *)
Inductive piece : Type :=
| Text (l : list ascii)
| Submatch (n : nat).

Definition expand_piece (whole : list ascii) (cap : option (list ascii))
    (p : piece) : list ascii :=
  match p with
  | Text l => l
  | Submatch 0 => whole
  | Submatch 1 => default [] cap
  | Submatch _ => []
  end.

Definition expand (tmpl : list piece) (whole : list ascii)
    (cap : option (list ascii)) : list ascii :=
  concat (expand_piece whole cap <$> tmpl).

Definition re_matcher (re : regex) (tmpl : list piece) (s : list ascii)
  : option (list ascii * nat) :=
  match exec re s with
  | (cap, rest) :: _ =>
      let n := length s - length rest in
      Some (expand tmpl (take n s) cap, n)
  | [] => None
  end.

(** [re.ReplaceAllString(s, tmpl)]. *)
Definition ReplaceAllString (re : regex) (s : list ascii) (tmpl : list piece)
  : list ascii :=
  scan (re_matcher re tmpl) s.

(** ** Character classes *)

Definition in_range (lo hi : nat) (c : ascii) : bool :=
  (lo <=? nat_of_ascii c) && (nat_of_ascii c <=? hi).

(** [[0-9]] *)
Definition is_digit (c : ascii) : bool := in_range 48 57 c.
(** [[a-z]] *)
Definition is_lower (c : ascii) : bool := in_range 97 122 c.
(** [[A-Z]] *)
Definition is_upper (c : ascii) : bool := in_range 65 90 c.
(** [[0-9a-zA-Z.]] *)
Definition is_file_id (c : ascii) : bool :=
  is_digit c || is_lower c || is_upper c || Ascii.eqb c "."%char.
(** [[0-9a-zA-Z-.]]: after the range [A-Z] the hyphen is a literal. *)
Definition is_img_id (c : ascii) : bool :=
  is_digit c || is_lower c || is_upper c || Ascii.eqb c "-"%char
  || Ascii.eqb c "."%char.
(** [[^)]]: a negated class also matches a newline; every byte of a
    multi-byte rune differs from [)], so on bytes it is any byte but [)]. *)
Definition not_rparen (c : ascii) : bool := negb (Ascii.eqb c ")"%char).

(** ** The patterns and the link rewriter *)

(** [#{([0-9]+)}] *)
Definition mdLinkPattern : regex :=
  Cat (Lit (bytes "#{")) (Cat (Group (Plus is_digit)) (Lit (bytes "}"))).

(** [https://docbase\.io/file_attachments/([0-9a-zA-Z.]+)] *)
Definition fileLinkPattern : regex :=
  Cat (Lit (bytes "https://docbase.io/file_attachments/"))
      (Group (Plus is_file_id)).

(** [!\[[a-z]+]\(/images/file_icons/[a-z]+\.svg\)] *)
Definition fileIconPattern : regex :=
  Cat (Lit (bytes "![")) (Cat (Plus is_lower)
    (Cat (Lit (bytes "](/images/file_icons/")) (Cat (Plus is_lower)
      (Lit (bytes ".svg)"))))).

(** [https://image\.docbase\.io/uploads/([0-9a-zA-Z-.]+)[^)]*] *)
Definition img_prefix : list ascii := bytes "https://image.docbase.io/uploads/".

Definition imgLinkPattern : regex :=
  Cat (Lit img_prefix) (Cat (Group (Plus is_img_id)) (Star not_rparen)).

Definition link_icon : list ascii := bytes "🔗".

(** The hyperlink the cross-document rule writes for the digits [ds]. *)
Definition hyperlink (ds : list ascii) : list ascii :=
  bytes "<a href=" ++ dq :: ds ++ bytes ".md" ++ dq :: bytes ">" ++ ds
  ++ bytes ".md</a>".

Definition md_link (ds : list ascii) : list ascii :=
  link_icon ++ bytes " " ++ hyperlink ds.

Definition md_template : list piece :=
  [ Text (link_icon ++ bytes " <a href=" ++ [dq]); Submatch 1;
    Text (bytes ".md" ++ dq :: bytes ">"); Submatch 1; Text (bytes ".md</a>") ].

Definition file_icon : list ascii := bytes "📄️".

Definition checkbox : list ascii :=
  bytes "<input type=" ++ dq :: bytes "checkbox" ++ dq
  :: bytes " disabled></input>".

Definition checkbox_checked : list ascii :=
  bytes "<input type=" ++ dq :: bytes "checkbox" ++ dq
  :: bytes " disabled checked></input>".

Definition guidance_url : list ascii := bytes "https://help.docbase.io/guidance/".

(** The seven steps of [fixLinks], one definition per source line. *)
Definition rewrite_md (s : list ascii) := ReplaceAllString mdLinkPattern s md_template.
Definition rewrite_file (s : list ascii) := ReplaceAllString fileLinkPattern s [Submatch 1].
Definition rewrite_icon (s : list ascii) := ReplaceAllString fileIconPattern s [Text file_icon].
Definition rewrite_img (s : list ascii) := ReplaceAllString imgLinkPattern s [Submatch 1].
Definition rewrite_unchecked (s : list ascii) := ReplaceAll s (bytes "[ ]") checkbox.
Definition rewrite_checked (s : list ascii) := ReplaceAll s (bytes "[x]") checkbox_checked.
Definition rewrite_guidance (s : list ascii) := ReplaceAll s (bytes "/guidance/") guidance_url.

Definition fixLinks (input : list ascii) : list ascii :=
  let s := input in
  let s := rewrite_md s in
  let s := rewrite_file s in
  let s := rewrite_icon s in
  let s := rewrite_img s in
  let s := rewrite_unchecked s in
  let s := rewrite_checked s in
  let s := rewrite_guidance s in
  s.

(** The seven matchers, in the order [fixLinks] runs them. *)
Definition rule_matchers : list (list ascii → option (list ascii * nat)) :=
  [ re_matcher mdLinkPattern md_template;
    re_matcher fileLinkPattern [Submatch 1];
    re_matcher fileIconPattern [Text file_icon];
    re_matcher imgLinkPattern [Submatch 1];
    lit_matcher (bytes "[ ]") checkbox;
    lit_matcher (bytes "[x]") checkbox_checked;
    lit_matcher (bytes "/guidance/") guidance_url ].

(** The text that reaches the image rule. *)
Definition before_images (input : list ascii) : list ascii :=
  rewrite_icon (rewrite_file (rewrite_md input)).

(** An image URL is open in [a]: at some position of [a] the URL prefix
    stands with a byte of the id after it, and [a] has no closing
    parenthesis from there on.  The match of the image rule that covers
    that position runs past the end of [a]. *)
Fixpoint image_open (a : list ascii) : bool :=
  match a with
  | [] => false
  | _ :: t =>
      (HasPrefix a img_prefix
       && match drop (length img_prefix) a with
          | c :: _ => is_img_id c
          | [] => false
          end
       && negb (existsb (Ascii.eqb ")"%char) a))
      || image_open t
  end.

(** [p] starts at no position of [a] in the text [a ++ z]. *)
Fixpoint starts_nowhere (p a z : list ascii) : bool :=
  match a with
  | [] => true
  | _ :: t => negb (HasPrefix (a ++ z) p) && starts_nowhere p t z
  end.

(** The text that reaches the two checkbox steps. *)
Definition before_checkboxes (input : list ascii) : list ascii :=
  rewrite_img (rewrite_icon (rewrite_file (rewrite_md input))).

(** The three literal steps that end [fixLinks]: the two checkbox steps and
    the guidance step. *)
Definition literal_steps (s : list ascii) : list ascii :=
  rewrite_guidance (rewrite_checked (rewrite_unchecked s)).

(** ** The emoji pass *)

(** [emojiDict], in the order of the map literal. *)
Definition emojiDict : list (list ascii * list ascii) :=
  [ (bytes "+1", bytes "👍");
    (bytes "-1", bytes "👎");
    (bytes "bulb", bytes "💡");
    (bytes "computer", bytes "💻");
    (bytes "inbox_tray", bytes "📥");
    (bytes "link", bytes "🔗");
    (bytes "lock", bytes "🔒");
    (bytes "mag", bytes "🔍");
    (bytes "memo", bytes "📝");
    (bytes "moneybag", bytes "💰");
    (bytes "movie_camera", bytes "🎥");
    (bytes "poop", bytes "💩");
    (bytes "pray", bytes "🙏");
    (bytes "shit", bytes "💩");
    (bytes "sparkle", bytes "✨");
    (bytes "sparkles", bytes "✨");
    (bytes "speech_balloon", bytes "💬");
    (bytes "unlock", bytes "🔓") ].

Definition colon : ascii := ":"%char.

(** [":" + k + ":"] *)
Definition shortcode (k : list ascii) : list ascii := colon :: k ++ [colon].

(** One turn of the loop of [fixEmoji]. *)
Definition emoji_step (s : list ascii) (kv : list ascii * list ascii)
  : list ascii :=
  ReplaceAll s (shortcode kv.1) kv.2.

(** [fixEmoji] for one iteration order of the map: Go's [range] over a map
    visits every entry once, in an order the language leaves open. *)
Definition fixEmoji_in (order : list (list ascii * list ascii))
    (input : list ascii) : list ascii :=
  foldl emoji_step input order.

Definition iteration_order (order : list (list ascii * list ascii)) : Prop :=
  order ≡ₚ emojiDict.

(** The dictionary as the map it is; [emoji_glyph k] is [emojiDict[k]]. *)
Definition emoji_map (dict : list (list ascii * list ascii))
  : gmap (list ascii) (list ascii) := list_to_map dict.

Definition emoji_glyph (k : list ascii) : option (list ascii) :=
  emoji_map emojiDict !! k.

(** [strings.HasSuffix]. *)
Definition HasSuffix (s p : list ascii) : bool :=
  HasPrefix (reverse s) (reverse p).

(** The text ends with a colon and a key of the dictionary: the colon that
    follows would close a shortcode. *)
Definition ends_with_open (a : list ascii) : bool :=
  existsb (λ kv, HasSuffix a (colon :: kv.1)) emojiDict.

(** The text starts with a key of the dictionary and a colon: the colon in
    front of it would open a shortcode. *)
Definition starts_with_close (b : list ascii) : bool :=
  existsb (λ kv, HasPrefix b (kv.1 ++ [colon])) emojiDict.

(** The entry of the dictionary whose shortcode starts the text. *)
Definition shortcode_at (s : list ascii) : option (list ascii * list ascii) :=
  find (λ kv, HasPrefix s (shortcode kv.1)) emojiDict.

(** No colon of the text closes one shortcode of the dictionary and opens
    another. *)
Fixpoint no_shared_colon (s : list ascii) : bool :=
  match s with
  | [] => true
  | _ :: t =>
      match shortcode_at s with
      | Some kv => negb (starts_with_close (drop (length kv.1 + 2) s))
      | None => true
      end && no_shared_colon t
  end.

(** Every shortcode of the dictionary replaced in one walk over the text. *)
Definition emoji_matcher (s : list ascii) : option (list ascii * nat) :=
  match shortcode_at s with
  | Some kv => Some (kv.2, length (shortcode kv.1))
  | None => None
  end.

Definition replace_shortcodes (s : list ascii) : list ascii :=
  scan emoji_matcher s.

(** A byte of 7-bit ASCII. *)
Definition is_ascii (c : ascii) : bool := nat_of_ascii c <? 128.

(** An entry of the dictionary has a key of ASCII bytes without a colon and
    a glyph of at least one byte, none of them ASCII. *)
Definition entry_ok (kv : list ascii * list ascii) : bool :=
  forallb (λ c, is_ascii c && negb (Ascii.eqb c colon)) kv.1
  && forallb (λ c, negb (is_ascii c)) kv.2
  && negb (bool_decide (kv.2 = [])).

(** A piece of text the emoji pass treats as a whole: a shortcode, or a
    glyph. *)
Definition emoji_unit (m : list ascii) : Prop :=
  (∃ k, m = shortcode k ∧ colon ∉ k)
  ∨ (m ≠ [] ∧ forallb (λ c, negb (is_ascii c)) m = true).

(** ** The name index *)

(** [strings.LastIndex(s, substr)]: where the last occurrence of [substr]
    in [s] starts, or -1.  [i] is the index of the head of [s]. *)
Fixpoint LastIndex_from (i : Z) (s substr : list ascii) : Z :=
  match s with
  | [] => if HasPrefix [] substr then i else (-1)%Z
  | _ :: t =>
      let r := LastIndex_from (i + 1) t substr in
      if (0 <=? r)%Z then r else if HasPrefix s substr then i else (-1)%Z
  end.

Definition LastIndex (s substr : list ascii) : Z := LastIndex_from 0 s substr.

(** The slice [s[i:]]. *)
Definition slice_from (s : list ascii) (i : Z) : list ascii :=
  drop (Z.to_nat i) s.

(** [name[strings.LastIndex(name, "_")+1:]] *)
Definition link_name (name : list ascii) : list ascii :=
  slice_from name (LastIndex name (bytes "_") + 1).

Record DirEntry : Type := { Name : list ascii; IsDir : bool }.

(** The body of the two scanning loops of [main]. *)
Definition index_entry (m : gmap (list ascii) (list ascii)) (entry : DirEntry)
  : gmap (list ascii) (list ascii) :=
  if IsDir entry then m else <[link_name (Name entry) := Name entry]> m.

Definition index_entries (m : gmap (list ascii) (list ascii))
    (entries : list DirEntry) : gmap (list ascii) (list ascii) :=
  foldl index_entry m entries.

(** [e] is a file of the listing, and no file after it in the listing has
    the same link name. *)
Definition last_with_link (entries : list DirEntry) (e : DirEntry) : Prop :=
  ∃ pre post, entries = pre ++ e :: post ∧ IsDir e = false ∧
    ∀ e', e' ∈ post → IsDir e' = false →
      link_name (Name e') ≠ link_name (Name e).

(** The index maps the link name of [e] to the name of [e]: what follows the
    last underscore, or the whole name when there is none. *)
Definition maps_entry (index : gmap (list ascii) (list ascii)) (e : DirEntry)
  : Prop :=
  (∀ id rest, Name e = id ++ bytes "_" ++ rest → "_"%char ∉ rest →
     index !! rest = Some (Name e)) ∧
  ("_"%char ∉ Name e → index !! Name e = Some (Name e)).

(** Every key of the index ends its value, and every value is the name of a
    file of the listing. *)
Definition index_inv (entries : list DirEntry)
    (index : gmap (list ascii) (list ascii)) : Prop :=
  ∀ k v, index !! k = Some v →
    k `suffix_of` v ∧ k = link_name v ∧
    ∃ e, e ∈ entries ∧ IsDir e = false ∧ Name e = v.

(** ** The file system and the process state *)

(** A Go [error], as its message. *)
Definition error : Type := list ascii.

Inductive result (A : Type) : Type :=
| Ok (a : A)
| Err (e : error).
Arguments Ok {A} a.
Arguments Err {A} e.

(** An open file as the program sees it through a [bufio.Scanner]: the
    lines [Scan] delivers before it stops, what [scanner.Err()] is then,
    and what [Close] returns. *)
Record File : Type := {
  Lines : list (list ascii);
  ScanErr : option error;
  CloseErr : option error }.

Record FileSys : Type := {
  ReadDir : list ascii → result (list DirEntry);
  Stat : list ascii → option error;
  Open : list ascii → result File;
  ReadFile : list ascii → result (list ascii) }.

Record document : Type := { FileName : list ascii; Title : list ascii }.

(** The package-level variables. *)
Record Globals : Type := {
  basicUser : list ascii;
  basicPassword : list ascii;
  mdDir : list ascii;
  imgDir : list ascii;
  fileDir : list ascii;
  mdEntries : list document;
  imgLinkToNameMap : gmap (list ascii) (list ascii);
  fileLinkToNameMap : gmap (list ascii) (list ascii) }.

(** Their values when [main] starts: empty strings, no documents, the two
    maps made empty. *)
Definition initial : Globals :=
  {| basicUser := []; basicPassword := []; mdDir := []; imgDir := [];
     fileDir := []; mdEntries := []; imgLinkToNameMap := ∅;
     fileLinkToNameMap := ∅ |}.

(** Code that runs against the package-level variables. *)
Definition Prog (A : Type) : Type := Globals → A * Globals.

Definition ret {A : Type} (a : A) : Prog A := λ g, (a, g).

Definition bind {A B : Type} (m : Prog A) (k : A → Prog B) : Prog B :=
  λ g, let (a, g') := m g in k a g'.

Definition gets {A : Type} (f : Globals → A) : Prog A := λ g, (f g, g).

Definition modify (f : Globals → Globals) : Prog unit := λ g, (tt, f g).

Notation "'let*' x := m 'in' k" := (bind m (λ x, k))
  (at level 10, x name, m at level 100, k at level 200).

Definition set_mdEntries (v : list document) (g : Globals) : Globals :=
  {| basicUser := basicUser g; basicPassword := basicPassword g;
     mdDir := mdDir g; imgDir := imgDir g; fileDir := fileDir g;
     mdEntries := v; imgLinkToNameMap := imgLinkToNameMap g;
     fileLinkToNameMap := fileLinkToNameMap g |}.

Definition set_imgLinkToNameMap (v : gmap (list ascii) (list ascii))
    (g : Globals) : Globals :=
  {| basicUser := basicUser g; basicPassword := basicPassword g;
     mdDir := mdDir g; imgDir := imgDir g; fileDir := fileDir g;
     mdEntries := mdEntries g; imgLinkToNameMap := v;
     fileLinkToNameMap := fileLinkToNameMap g |}.

Definition set_fileLinkToNameMap (v : gmap (list ascii) (list ascii))
    (g : Globals) : Globals :=
  {| basicUser := basicUser g; basicPassword := basicPassword g;
     mdDir := mdDir g; imgDir := imgDir g; fileDir := fileDir g;
     mdEntries := mdEntries g; imgLinkToNameMap := imgLinkToNameMap g;
     fileLinkToNameMap := v |}.

(** The command line after [flag.Parse]. *)
Record Flags : Type := {
  flag_bu : list ascii;
  flag_bp : list ascii;
  flag_m : list ascii;
  flag_i : list ascii;
  flag_f : list ascii }.

Definition set_flags (fl : Flags) (g : Globals) : Globals :=
  {| basicUser := flag_bu fl; basicPassword := flag_bp fl;
     mdDir := flag_m fl; imgDir := flag_i fl; fileDir := flag_f fl;
     mdEntries := mdEntries g; imgLinkToNameMap := imgLinkToNameMap g;
     fileLinkToNameMap := fileLinkToNameMap g |}.

(** ** Requests and responses *)

Record Request : Type := {
  Method : list ascii;
  URLPath : list ascii;
  (** what [r.BasicAuth()] returns: the pair, or nothing when [ok] is false *)
  BasicAuth : option (list ascii * list ascii) }.

Record Response : Type := {
  Status : nat;
  Header : list (list ascii * list ascii);
  Body : list ascii }.

Definition StatusOK : nat := 200.
Definition StatusUnauthorized : nat := 401.
Definition StatusNotFound : nat := 404.
Definition StatusMethodNotAllowed : nat := 405.
Definition StatusInternalServerError : nat := 500.

(** [http.Error]: headers set before it are kept. *)
Definition http_Error (hdr : list (list ascii * list ascii))
    (msg : list ascii) (code : nat) : Response :=
  {| Status := code;
     Header := hdr ++ [ (bytes "Content-Type", bytes "text/plain; charset=utf-8");
                        (bytes "X-Content-Type-Options", bytes "nosniff") ];
     Body := msg ++ bytes (String "010"%char EmptyString) |}.

Definition http_NotFound : Response :=
  http_Error [] (bytes "404 page not found") StatusNotFound.

(** The challenge of [catchAll]. *)
Definition challenge : list ascii * list ascii :=
  (bytes "WWW-Authenticate",
   bytes "Basic realm=" ++ dq :: bytes "ログインしてください" ++ [dq]).

(** [write]: the content with its type, status 200. *)
Definition write (content contentType : list ascii) : Response :=
  {| Status := StatusOK; Header := [(bytes "Content-Type", contentType)];
     Body := content |}.

(** A page a template wrote. *)
Definition page (body : list ascii) : Response :=
  {| Status := StatusOK; Header := []; Body := body |}.

(** [strings.TrimPrefix]. *)
Definition TrimPrefix (s p : list ascii) : list ascii :=
  if HasPrefix s p then drop (length p) s else s.

(** [head]: the first line of a file. *)
Definition head_line (fs : FileSys) (filePath : list ascii)
  : result (list ascii) :=
  match Open fs filePath with
  | Err e => Err e
  | Ok f =>
      match Lines f with
      | l :: _ => Ok l
      | [] => match ScanErr f with Some e => Err e | None => Ok [] end
      end
  end.

(** [headAndContent].  The result [err] is named; the deferred function
    runs after [err = scanner.Err()] and assigns it [f.Close()]. *)
Definition headAndContent (fs : FileSys) (filePath : list ascii)
  : list ascii * list ascii * option error :=
  match Open fs filePath with
  | Err e => ([], [], Some e)
  | Ok f =>
      let head := match Lines f with l :: _ => l | [] => [] end in
      let content :=
        foldl (λ content l, content ++ l ++ bytes (String "010"%char EmptyString))
              [] (tail (Lines f)) in
      let err := ScanErr f in
      let err := CloseErr f in
      (head, content, err)
  end.

(** The request paths that the default mux passes on to a registered
    handler as they are: the path starts with a slash and has no empty
    segment before its end, no segment [.] and no segment [..].  These are
    the paths that [cleanPath] of [net/http] leaves unchanged.  A request
    with another path (a CONNECT request apart) is answered by the mux
    itself, with a redirect to the cleaned path, and reaches no handler of
    the program. *)
Definition canonical_path (p : list ascii) : bool :=
  HasPrefix p (bytes "/")
  && negb (Contains p (bytes "//"))
  && negb (Contains (p ++ bytes "/") (bytes "/./"))
  && negb (Contains (p ++ bytes "/") (bytes "/../")).

(** ** Startup and the handlers

    The libraries the program calls are variables of the section:
    [path.Join], [strings.ToLower], [http.DetectContentType], the Markdown
    converter, the two templates (as the bytes they write) and the embedded
    stylesheet.  A handler also takes [order], the order in which the runtime
    walks [emojiDict] while that request is served. *)
Section Server.
Variable path_Join : list ascii → list ascii → list ascii.
Variable ToLower : list ascii → list ascii.
Variable DetectContentType : list ascii → list ascii.
Variable markdown_ToHTML : list ascii → list ascii.
Variable indexTemplate : list document → list ascii.
Variable documentTemplate : list ascii → list ascii → list ascii.
Variable docCSS : list ascii.

(** The body of the loop over the Markdown directory. *)
Definition catalog_entry (fs : FileSys) (dir : list ascii)
    (acc : list document) (entry : DirEntry) : list document :=
  if IsDir entry then acc
  else
    let title :=
      match head_line fs (path_Join dir (Name entry)) with
      | Ok t => t
      | Err _ => []
      end in
    acc ++ [ {| FileName := Name entry; Title := title |} ].

(** [main] up to the point where it starts to listen; [Err] is
    [log.Fatalf]. *)
Definition main (fl : Flags) (fs : FileSys) : Prog (result unit) :=
  let* _ := modify (set_flags fl) in
  let* md := gets mdDir in
  match ReadDir fs md with
  | Err e => ret (Err e)
  | Ok mdDirEntries =>
      let* _ := modify (λ g,
        set_mdEntries (foldl (catalog_entry fs md) (mdEntries g) mdDirEntries) g) in
      let* img := gets imgDir in
      match ReadDir fs img with
      | Err e => ret (Err e)
      | Ok imgDirEntries =>
          let* _ := modify (λ g,
            set_imgLinkToNameMap
              (index_entries (imgLinkToNameMap g) imgDirEntries) g) in
          let* file := gets fileDir in
          match ReadDir fs file with
          | Err e => ret (Err e)
          | Ok fileDirEntries =>
              let* _ := modify (λ g,
                set_fileLinkToNameMap
                  (index_entries (fileLinkToNameMap g) fileDirEntries) g) in
              ret (Ok tt)
          end
      end
  end.

Definition handleIndex : Prog Response :=
  let* docs := gets mdEntries in
  ret (page (indexTemplate docs)).

Definition handleMarkdown (fs : FileSys)
    (order : list (list ascii * list ascii)) (fileName : list ascii)
  : Prog Response :=
  let* dir := gets mdDir in
  let filePath := path_Join dir fileName in
  match Stat fs filePath with
  | Some _ => ret http_NotFound
  | None =>
      match headAndContent fs filePath with
      | (_, _, Some err) => ret (http_Error [] err StatusInternalServerError)
      | (title, content, None) =>
          let htmlContent :=
            markdown_ToHTML (fixEmoji_in order (fixLinks content)) in
          ret (page (documentTemplate title htmlContent))
      end
  end.

Definition handleImage (fs : FileSys) (fileName : list ascii)
  : Prog Response :=
  let* index := gets imgLinkToNameMap in
  match index !! fileName with
  | None => ret http_NotFound
  | Some actualImageName =>
      let* dir := gets imgDir in
      let imgPath := path_Join dir actualImageName in
      match ReadFile fs imgPath with
      | Err err => ret (http_Error [] err StatusInternalServerError)
      | Ok content => ret (write content (DetectContentType content))
      end
  end.

Definition handleFile (fs : FileSys) (fileName : list ascii)
  : Prog Response :=
  let* index := gets fileLinkToNameMap in
  match index !! fileName with
  | None => ret http_NotFound
  | Some actualFileName =>
      let* dir := gets fileDir in
      let filePath := path_Join dir actualFileName in
      match ReadFile fs filePath with
      | Err err => ret (http_Error [] err StatusInternalServerError)
      | Ok content => ret (write content (DetectContentType content))
      end
  end.

(** The test of [catchAll] on the credential: [ok] and both parts equal. *)
Definition credential_ok (user password : list ascii) (r : Request) : bool :=
  match BasicAuth r with
  | Some (id, secret) =>
      bool_decide (id = user) && bool_decide (secret = password)
  | None => false
  end.

Definition catchAll (fs : FileSys) (order : list (list ascii * list ascii))
    (r : Request) : Prog Response :=
  if negb (bool_decide (Method r = bytes "GET")) then
    ret (http_Error [] (bytes "Method Not Allowed") StatusMethodNotAllowed)
  else
    let* user := gets basicUser in
    let* password := gets basicPassword in
    if (0 <? length user) && negb (credential_ok user password r) then
      ret (http_Error [challenge] (bytes "Unauthorized") StatusUnauthorized)
    else
      let fileName := TrimPrefix (URLPath r) (bytes "/") in
      if length fileName =? 0 then handleIndex
      else if HasSuffix (ToLower fileName) (bytes ".md") then
        handleMarkdown fs order fileName
      else if HasSuffix (ToLower fileName) (bytes ".jpg")
              || HasSuffix (ToLower fileName) (bytes ".jpeg")
              || HasSuffix (ToLower fileName) (bytes ".png")
              || HasSuffix (ToLower fileName) (bytes ".gif") then
        handleImage fs fileName
      else handleFile fs fileName.

(** The three registrations of [main] on the default mux, for a request
    whose path is in canonical form ([canonical_path]): the two fixed paths
    match exactly, the pattern [/] takes every other path. *)
Definition serve (fs : FileSys) (order : list (list ascii * list ascii))
    (r : Request) : Prog Response :=
  if bool_decide (URLPath r = bytes "/favicon.ico") then ret http_NotFound
  else if bool_decide (URLPath r = bytes "/doc.css") then
    ret (write docCSS (bytes "text/css"))
  else catchAll fs order r.

(** The states the process goes through: the one [main] leaves, then one
    request after another, each with the file system of its moment. *)
Inductive reachable (fl : Flags) (fs0 : FileSys) : Globals → Prop :=
| reach_start g :
    main fl fs0 initial = (Ok tt, g) → reachable fl fs0 g
| reach_serve g fs order r :
    reachable fl fs0 g → reachable fl fs0 (serve fs order r g).2.
End Server.


(** ** A small installation

    A file system, flags and stand-ins for the libraries, to run startup and
    the handlers on. *)

Definition example_join (dir name : list ascii) : list ascii :=
  dir ++ bytes "/" ++ name.

Definition example_flags : Flags :=
  {| flag_bu := bytes "admin"; flag_bp := bytes "secret";
     flag_m := bytes "md"; flag_i := bytes "img"; flag_f := bytes "file" |}.

Definition example_fs : FileSys :=
  {| ReadDir := λ dir,
       if bool_decide (dir = bytes "md") then
         Ok [ {| Name := bytes "1.md"; IsDir := false |} ]
       else if bool_decide (dir = bytes "img") then
         Ok [ {| Name := bytes "1_a.png"; IsDir := false |};
              {| Name := bytes "2_a.png"; IsDir := false |};
              {| Name := bytes "3_old"; IsDir := true |};
              {| Name := bytes "logo.gif"; IsDir := false |} ]
       else if bool_decide (dir = bytes "file") then
         Ok [ {| Name := bytes "7_annual_report.pdf"; IsDir := false |} ]
       else Err (bytes "no such file or directory");
     Stat := λ _, None;
     Open := λ _,
       Ok {| Lines := [bytes "Title"; bytes "first line"];
             ScanErr := Some (bytes "bufio.Scanner: token too long");
             CloseErr := None |};
     ReadFile := λ _, Err (bytes "permission denied") |}.

(** The package-level variables after [main] on this installation. *)
Definition example_globals : Globals :=
  (main example_join example_flags example_fs initial).2.

(** [serve] with stand-ins for the libraries: the converter and the
    templates copy their input, the stylesheet is one rule. *)
Definition example_serve (fs : FileSys) (r : Request) : Prog Response :=
  serve example_join (λ s, s) (λ _, bytes "application/octet-stream")
    (λ md, md) (λ docs, concat (Title <$> docs)) (λ title html, title ++ html)
    (bytes "body{}") fs emojiDict r.

(** ** Names for what [catchAll] tests *)

(** The second case of the switch of [catchAll]. *)
Definition is_markdown_name (ToLower : list ascii → list ascii)
    (fileName : list ascii) : bool :=
  HasSuffix (ToLower fileName) (bytes ".md").

(** The four cases that fall through to [handleImage]. *)
Definition is_image_name (ToLower : list ascii → list ascii)
    (fileName : list ascii) : bool :=
  HasSuffix (ToLower fileName) (bytes ".jpg")
  || HasSuffix (ToLower fileName) (bytes ".jpeg")
  || HasSuffix (ToLower fileName) (bytes ".png")
  || HasSuffix (ToLower fileName) (bytes ".gif").

(** The request passes the credential test of [catchAll]: no user name is
    configured, or the request carries the configured pair. *)
Definition passes_auth (g : Globals) (r : Request) : bool :=
  negb (0 <? length (basicUser g))
  || credential_ok (basicUser g) (basicPassword g) r.

(** The package-level variables with the user name cleared: the server
    without Basic authentication. *)
Definition without_auth (g : Globals) : Globals :=
  {| basicUser := []; basicPassword := basicPassword g;
     mdDir := mdDir g; imgDir := imgDir g; fileDir := fileDir g;
     mdEntries := mdEntries g; imgLinkToNameMap := imgLinkToNameMap g;
     fileLinkToNameMap := fileLinkToNameMap g |}.

(** What [handleImage] and [handleFile] answer once the name is resolved. *)
Definition serve_file (DetectContentType : list ascii → list ascii)
    (fs : FileSys) (filePath : list ascii) : Response :=
  match ReadFile fs filePath with
  | Err err => http_Error [] err StatusInternalServerError
  | Ok content => write content (DetectContentType content)
  end.

(** [https://docbase.io/file_attachments/] *)
Definition file_prefix : list ascii := bytes "https://docbase.io/file_attachments/".

(** A second installation, in which files can be read. *)
Definition example_fs_readable : FileSys :=
  {| ReadDir := ReadDir example_fs;
     Stat := λ _, None;
     Open := λ _,
       Ok {| Lines := [bytes "Title"; bytes "#{7} :bulb:"];
             ScanErr := None; CloseErr := None |};
     ReadFile := λ path, Ok (bytes "content of " ++ path) |}.
(** * Properties *)

(** ** Text *)

Lemma HasPrefix_spec s p : HasPrefix s p = true ↔ ∃ k, s = p ++ k.
Proof.
  revert s. induction p as [|a p IH]; intros s; simpl.
  - split; [intros _; by exists s | done].
  - destruct s as [|b s]; simpl.
    + split; [done | intros [k Hk]; discriminate].
    + rewrite andb_true_iff, IH. split.
      * intros [Hab [k ->]]. apply Ascii.eqb_eq in Hab as ->. by exists k.
      * intros [k [= -> ->]]. split; [apply Ascii.eqb_refl | by exists k].
Qed.

Lemma HasPrefix_app p k : HasPrefix (p ++ k) p = true.
Proof. apply HasPrefix_spec. by exists k. Qed.

Lemma HasPrefix_false s p : HasPrefix s p = false ↔ ¬ ∃ k, s = p ++ k.
Proof.
  rewrite <- HasPrefix_spec. destruct (HasPrefix s p); split; done.
Qed.

Lemma Contains_spec s w : Contains s w = true ↔ contains w s.
Proof.
  induction s as [|c s IH]; simpl.
  - rewrite orb_false_r, HasPrefix_spec. split.
    + intros [k Hk]. by exists [], k.
    + intros (a & b & Hab). destruct a; [by exists b | discriminate].
  - rewrite orb_true_iff, HasPrefix_spec, IH. split.
    + intros [[k Hk] | (a & b & ->)]; [by exists [], k | by exists (c :: a), b].
    + intros (a & b & Hab). destruct a as [|c' a]; simpl in Hab.
      * left. by exists b.
      * right. injection Hab as -> ->. by exists a, b.
Qed.

(** ** The replacement loop *)
Section ScanFacts.
Variable matcher : list ascii → option (list ascii * nat).

Lemma scan_from_drop n s : scan_from matcher n s = scan matcher (drop n s).
Proof.
  revert n. induction s as [|c t IH]; intros [|n]; simpl; done.
Qed.

Lemma scan_match s r n :
  matcher s = Some (r, S n) → S n ≤ length s →
  scan matcher s = r ++ scan matcher (drop (S n) s).
Proof.
  destruct s as [|c t]; simpl; [lia|]. intros H _.
  unfold scan at 1. simpl. rewrite H. by rewrite scan_from_drop.
Qed.

Lemma scan_copy c t :
  matcher (c :: t) = None → scan matcher (c :: t) = c :: scan matcher t.
Proof. intros H. unfold scan at 1. simpl. by rewrite H. Qed.

Lemma quiet_nil : quiet matcher [].
Proof. intros w1 w2 y H Hne. by destruct w1, w2. Qed.

Lemma quiet_cons c w :
  (∀ y, matcher (c :: w ++ y) = None) → quiet matcher w → quiet matcher (c :: w).
Proof.
  intros Hc Hw w1 w2 y H Hne. destruct w1 as [|c' w1]; simpl in H.
  - subst w2. apply Hc.
  - injection H as -> ->. by eapply Hw.
Qed.

Lemma quiet_tail c w : quiet matcher (c :: w) → quiet matcher w.
Proof. intros H w1 w2 y -> Hne. by apply (H (c :: w1) w2 y). Qed.

Lemma quiet_app u v : quiet matcher u → quiet matcher v → quiet matcher (u ++ v).
Proof.
  intros Hu Hv. induction u as [|c u IH]; [done|].
  simpl. apply quiet_cons.
  - intros y. rewrite <- app_assoc.
    by apply (Hu [] (c :: u) (v ++ y)).
  - apply IH. by eapply quiet_tail.
Qed.

Lemma scan_quiet w y : quiet matcher w → scan matcher (w ++ y) = w ++ scan matcher y.
Proof.
  induction w as [|c w IH]; intros Hq; [done|].
  simpl. rewrite scan_copy.
  - f_equal. apply IH. by eapply quiet_tail.
  - by apply (Hq [] (c :: w) y).
Qed.


(** A protected text survives the loop where it stands. *)
Lemma scan_protect w x y :
  quiet matcher w → stops_before matcher w →
  ∃ x', scan matcher (x ++ w ++ y) = x' ++ w ++ scan matcher y.
Proof.
  intros Hq Hs. remember (length x) as k eqn:Hk.
  revert x Hk. induction k as [k IH] using lt_wf_ind. intros x Hk.
  destruct x as [|c x].
  - exists []. simpl. by apply scan_quiet.
  - destruct (matcher ((c :: x) ++ w ++ y)) as [[r [|n]]|] eqn:Hm.
    + destruct (IH (length x)) with (x := x) as [x' Hx']; [simpl in Hk; lia|done|].
      exists (c :: x'). unfold scan at 1. simpl. simpl in Hm. rewrite Hm.
      fold (scan matcher (x ++ w ++ y)). by rewrite Hx'.
    + pose proof (Hs (c :: x) _ _ _ ltac:(done) Hm) as Hn.
      rewrite (scan_match _ _ _ Hm) by (rewrite length_app; lia).
      rewrite drop_app_le by done.
      destruct (IH (length (drop (S n) (c :: x)))) with (x := drop (S n) (c :: x))
        as [x' Hx']; [rewrite length_drop; simpl in *; lia|done|].
      exists (r ++ x'). rewrite Hx'. by rewrite <- app_assoc.
    + destruct (IH (length x)) with (x := x) as [x' Hx']; [simpl in Hk; lia|done|].
      exists (c :: x'). simpl. rewrite scan_copy by done. by rewrite Hx'.
Qed.

Lemma scan_keeps w s :
  quiet matcher w → stops_before matcher w → contains w s → contains w (scan matcher s).
Proof.
  intros Hq Hs (x & y & ->).
  destruct (scan_protect w x y Hq Hs) as [x' ->]. by eexists _, _.
Qed.

Lemma scan_app a z :
  splits_at matcher a z → scan matcher (a ++ z) = scan matcher a ++ scan matcher z.
Proof.
  remember (length a) as k eqn:Hk.
  revert a Hk. induction k as [k IH] using lt_wf_ind. intros a Hk Hsp.
  destruct a as [|c a]; [done|].
  destruct (Hsp [] (c :: a) eq_refl) as [Heq Hin]; [done|].
  destruct (matcher (c :: a)) as [[r [|n]]|] eqn:Hm.
  - unfold scan at 1 2. simpl. simpl in Heq. rewrite Heq. rewrite Hm. simpl. f_equal.
    apply (IH (length a)); [simpl in Hk; lia|done|].
    intros a1 a2 -> Hne. by apply (Hsp (c :: a1) a2).
  - pose proof (Hin _ _ eq_refl) as Hn.
    rewrite (scan_match _ r n) by (rewrite ?length_app; done || lia).
    rewrite (scan_match (c :: a) r n) by done.
    rewrite drop_app_le by done. rewrite <- app_assoc. f_equal.
    apply (IH (length (drop (S n) (c :: a)))); [rewrite length_drop; simpl in *; lia|done|].
    intros a1 a2 Ha Hne. apply (Hsp (take (S n) (c :: a) ++ a1) a2); [|done].
    by rewrite <- app_assoc, <- Ha, take_drop.
  - simpl. rewrite !scan_copy by (done || by rewrite <- Hm). simpl. f_equal.
    apply (IH (length a)); [simpl in Hk; lia|done|].
    intros a1 a2 -> Hne. by apply (Hsp (c :: a1) a2).
Qed.
End ScanFacts.

(** ** The matching engine *)

Lemma HasPrefix_length s p : HasPrefix s p = true → length p ≤ length s.
Proof.
  intros [k ->]%HasPrefix_spec. rewrite length_app. lia.
Qed.

Lemma HasPrefix_stop c x z l :
  existsb (Ascii.eqb c) l = false →
  HasPrefix (x ++ c :: z) l = HasPrefix x l.
Proof.
  revert x. induction l as [|a l IH]; intros x Hc; [done|].
  simpl in Hc. apply orb_false_elim in Hc as [Hca Hl].
  destruct x as [|b x]; simpl.
  - rewrite Ascii.eqb_sym, Hca. done.
  - by rewrite IH.
Qed.

Lemma greedy_suffix cls s rest :
  rest ∈ greedy cls s → ∃ run, s = run ++ rest.
Proof.
  induction s as [|c t IH]; simpl.
  - intros ->%list_elem_of_singleton. by exists [].
  - destruct (cls c).
    + intros [H | ->%list_elem_of_singleton]%elem_of_app.
      * destruct (IH H) as [run ->]. by exists (c :: run).
      * by exists [].
    + intros ->%list_elem_of_singleton. by exists [].
Qed.

Lemma greedy_stop cls c x z :
  cls c = false →
  greedy cls (x ++ c :: z) = (λ rest, rest ++ c :: z) <$> greedy cls x.
Proof.
  intros Hc. induction x as [|b x IH]; simpl.
  - by rewrite Hc.
  - destruct (cls b); [|done]. by rewrite IH, fmap_app.
Qed.

Lemma greedy_run cls run rest :
  forallb cls run = true →
  match rest with [] => True | c :: _ => cls c = false end →
  ∃ others, greedy cls (run ++ rest) = rest :: others.
Proof.
  intros Hrun Hrest. induction run as [|b run IH]; simpl.
  - destruct rest as [|c rest]; simpl; [by eexists|]. rewrite Hrest. by eexists.
  - simpl in Hrun. apply andb_prop in Hrun as [-> Hrun].
    destruct (IH Hrun) as [others ->]. by eexists.
Qed.

Lemma fmap_bind_list {A B C : Type} (f : B → C) (g : A → list B) (l : list A) :
  f <$> (l ≫= g) = l ≫= (λ x, f <$> g x).
Proof.
  induction l as [|a l IH]; [done|].
  by rewrite !bind_cons, fmap_app, IH.
Qed.

Lemma exec_suffix r s m : m ∈ exec r s → ∃ consumed, s = consumed ++ m.2.
Proof.
  revert s m. induction r as [l|cls|cls|r IH|r1 IH1 r2 IH2]; intros s m; simpl.
  - destruct (HasPrefix s l) eqn:Hp; [|by intros ?%elem_of_nil].
    intros ->%list_elem_of_singleton. exists (take (length l) s).
    simpl. by rewrite take_drop.
  - destruct s as [|c t]; [by intros ?%elem_of_nil|].
    destruct (cls c); [|by intros ?%elem_of_nil].
    intros (rest & -> & [run ->]%greedy_suffix)%list_elem_of_fmap.
    by exists (c :: run).
  - intros (rest & -> & [run ->]%greedy_suffix)%list_elem_of_fmap.
    by exists run.
  - intros (m' & -> & Hm')%list_elem_of_fmap. simpl. by apply IH.
  - intros (m1 & (m2 & -> & H2)%list_elem_of_fmap & H1)%list_elem_of_bind.
    destruct (IH1 _ _ H1) as [c1 ->]. destruct (IH2 _ _ H2) as [c2 E].
    simpl. exists (c1 ++ c2). by rewrite <- app_assoc, <- E.
Qed.

Lemma exec_length r s m : m ∈ exec r s → length m.2 ≤ length s.
Proof.
  intros [consumed E]%exec_suffix. rewrite E, length_app. lia.
Qed.

(** A byte the pattern rejects ends every match: in front of it the
    pattern matches as if the text ended there. *)
Lemma exec_stop r c x z :
  rejects r c = true →
  exec r (x ++ c :: z) = (λ m, (m.1, m.2 ++ c :: z)) <$> exec r x.
Proof.
  revert x. induction r as [l|cls|cls|r IH|r1 IH1 r2 IH2]; intros x; simpl.
  - intros Hc%negb_true_iff. rewrite HasPrefix_stop by done.
    destruct (HasPrefix x l) eqn:Hp; [|done]. simpl.
    by rewrite drop_app_le by by apply HasPrefix_length.
  - intros Hc%negb_true_iff. destruct x as [|b x]; simpl.
    + by rewrite Hc.
    + destruct (cls b); [|done].
      rewrite greedy_stop by done. rewrite <- !list_fmap_compose. done.
  - intros Hc%negb_true_iff.
    rewrite greedy_stop by done. rewrite <- !list_fmap_compose. done.
  - intros Hc. rewrite IH by done. rewrite <- !list_fmap_compose.
    apply Forall_fmap_ext_1, Forall_forall. intros m Hm. simpl.
    pose proof (exec_length _ _ _ Hm) as Hlen.
    f_equal. f_equal. rewrite !length_app.
    replace (length x + length (c :: z) - (length m.2 + length (c :: z)))
      with (length x - length m.2) by lia.
    apply take_app_le. lia.
  - intros [H1 H2]%andb_prop. rewrite IH1 by done.
    rewrite list_fmap_bind, fmap_bind_list.
    apply list_bind_ext; [|done]. intros m1. simpl.
    rewrite IH2 by done. by rewrite <- !list_fmap_compose.
Qed.

Lemma exec_lit_fail l r s : HasPrefix s l = false → exec (Cat (Lit l) r) s = [].
Proof. intros H. simpl. by rewrite H. Qed.

Lemma exec_lit_cons a l r b s :
  exec (Cat (Lit (a :: l)) r) (b :: s) =
  if Ascii.eqb a b then exec (Cat (Lit l) r) s else [].
Proof.
  simpl. destruct (Ascii.eqb a b); [|done]. simpl.
  destruct (HasPrefix s l); done.
Qed.

Lemma exec_cat_head r1 r2 s m1 t1 m2 t2 :
  exec r1 s = m1 :: t1 → exec r2 m1.2 = m2 :: t2 →
  ∃ t, exec (Cat r1 r2) s = (first_capture m1.1 m2.1, m2.2) :: t.
Proof.
  intros H1 H2. simpl. rewrite H1, bind_cons, H2. simpl. by eexists.
Qed.

Lemma exec_lit_head l k : exec (Lit l) (l ++ k) = [(None, k)].
Proof. simpl. by rewrite HasPrefix_app, drop_app_length. Qed.

Lemma exec_plus_head cls run rest :
  run ≠ [] → forallb cls run = true →
  match rest with [] => True | c :: _ => cls c = false end →
  ∃ t, exec (Plus cls) (run ++ rest) = (None, rest) :: t.
Proof.
  intros Hne Hrun Hrest. destruct run as [|c run]; [done|].
  simpl in *. apply andb_prop in Hrun as [-> Hrun].
  destruct (greedy_run cls run rest Hrun Hrest) as [others ->].
  simpl. by eexists.
Qed.

Lemma exec_group_head r s m t :
  exec r s = m :: t →
  ∃ t', exec (Group r) s = (Some (take (length s - length m.2) s), m.2) :: t'.
Proof. intros H. simpl. rewrite H. simpl. by eexists. Qed.

(** ** The matcher of a pattern *)

Lemma re_matcher_length re tmpl s r n :
  re_matcher re tmpl s = Some (r, n) → n ≤ length s.
Proof.
  unfold re_matcher. destruct (exec re s) as [|[cap rest] ?]; [done|].
  intros [= <- <-]. lia.
Qed.

Lemma re_matcher_none re tmpl s : exec re s = [] → re_matcher re tmpl s = None.
Proof. unfold re_matcher. by intros ->. Qed.

Lemma re_matcher_head re tmpl consumed rest cap t :
  exec re (consumed ++ rest) = (cap, rest) :: t →
  re_matcher re tmpl (consumed ++ rest)
  = Some (expand tmpl consumed cap, length consumed).
Proof.
  unfold re_matcher. intros ->. rewrite length_app.
  replace (length consumed + length rest - length rest) with (length consumed) by lia.
  by rewrite take_app_length.
Qed.

(** In front of a byte the pattern rejects, the matcher reports what it
    reports when the text ends there. *)
Lemma re_matcher_stop re tmpl c x z :
  rejects re c = true →
  re_matcher re tmpl (x ++ c :: z) = re_matcher re tmpl x.
Proof.
  intros Hc. unfold re_matcher. rewrite exec_stop by done.
  destruct (exec re x) as [|[cap rest] t] eqn:Hx; [done|]. simpl.
  assert (length rest ≤ length x) as Hlen.
  { apply (exec_length re x (cap, rest)). rewrite Hx. apply list_elem_of_here. }
  rewrite !length_app.
  replace (length x + length (c :: z) - (length rest + length (c :: z)))
    with (length x - length rest) by lia.
  by rewrite take_app_le by lia.
Qed.

(** ** Substrings *)

Lemma existsb_eqb_false c l : existsb (Ascii.eqb c) l = false ↔ c ∉ l.
Proof.
  induction l as [|a l IH]; simpl.
  - split; [intros _ ?%elem_of_nil; done | done].
  - rewrite orb_false_iff, IH, not_elem_of_cons.
    destruct (Ascii.eqb_spec c a); split; intros []; try done.
Qed.

Lemma contains_app_inv q0 q n s :
  contains (q0 :: q) (n ++ s) → q0 ∈ n ∨ contains (q0 :: q) s.
Proof.
  intros (a & b & E). apply app_eq_inv in E as [(k & -> & E) | (k & -> & E)].
  - destruct k as [|k0 k].
    + right. exists [], b. simpl in *. done.
    + left. simpl in E. injection E as -> _. set_solver.
  - right. by exists k, b.
Qed.

Lemma contains_cons_inv q c s :
  contains q (c :: s) → (∃ k, c :: s = q ++ k) ∨ contains q s.
Proof.
  intros ([|a0 a] & b & E); simpl in E.
  - left. by exists b.
  - right. injection E as -> ->. by exists a, b.
Qed.

Lemma contains_cons q c s : contains q s → contains q (c :: s).
Proof. intros (a & b & ->). by exists (c :: a), b. Qed.

Lemma contains_app_r q n s : contains q s → contains q (n ++ s).
Proof. intros (a & b & ->). exists (n ++ a), b. by rewrite <- app_assoc. Qed.

Lemma contains_drop q n s : contains q (drop n s) → contains q s.
Proof.
  intros H. rewrite <- (take_drop n s). by apply contains_app_r.
Qed.

(** ** The loop, one step at a time *)
Section ScanSteps.
Variable matcher : list ascii → option (list ascii * nat).

Lemma scan_step c t :
  scan matcher (c :: t) =
  match matcher (c :: t) with
  | Some (r, S n) => r ++ scan matcher (drop n t)
  | _ => c :: scan matcher t
  end.
Proof.
  unfold scan at 1. simpl.
  destruct (matcher (c :: t)) as [[r [|n]]|]; try done.
  by rewrite scan_from_drop.
Qed.

(** Induction along the loop: a byte is copied, or a match is replaced. *)
Lemma scan_induction (P : list ascii → Prop) :
  P [] →
  (∀ c t, (∀ r n, matcher (c :: t) ≠ Some (r, S n)) →
     scan matcher (c :: t) = c :: scan matcher t → P t → P (c :: t)) →
  (∀ c t r n, matcher (c :: t) = Some (r, S n) →
     scan matcher (c :: t) = r ++ scan matcher (drop n t) →
     P (drop n t) → P (c :: t)) →
  ∀ s, P s.
Proof.
  intros Hnil Hcopy Hmatch s. remember (length s) as k eqn:Hk.
  revert s Hk. induction k as [k IH] using lt_wf_ind. intros s Hk.
  destruct s as [|c t]; [done|]. pose proof (scan_step c t) as Hstep.
  destruct (matcher (c :: t)) as [[r [|n]]|] eqn:Hm.
  - apply Hcopy; [congruence|done|]. apply (IH (length t)); simpl in *; [lia|done].
  - apply (Hmatch c t r n); [done|done|].
    apply (IH (length (drop n t))); [|done]. rewrite length_drop. simpl in *. lia.
  - apply Hcopy; [congruence|done|]. apply (IH (length t)); simpl in *; [lia|done].
Qed.
End ScanSteps.

(** ** [strings.ReplaceAll] *)

Lemma lit_matcher_Some old new s r n :
  lit_matcher old new s = Some (r, n) ↔
  HasPrefix s old = true ∧ r = new ∧ n = length old.
Proof.
  unfold lit_matcher. destruct (HasPrefix s old); split; try done.
  - by intros [= <- <-].
  - by intros (_ & -> & ->).
  - by intros [? _].
Qed.

Lemma lit_matcher_None old new s :
  lit_matcher old new s = None ↔ HasPrefix s old = false.
Proof. unfold lit_matcher. by destruct (HasPrefix s old). Qed.

Lemma ReplaceAll_match old new t :
  old ≠ [] → ReplaceAll (old ++ t) old new = new ++ ReplaceAll t old new.
Proof.
  intros Hne. unfold ReplaceAll.
  assert (∃ n, length old = S n) as [n Hn].
  { destruct (length old) eqn:E; [|by eexists]. by apply nil_length_inv in E. }
  rewrite (scan_match _ (old ++ t) new n).
  - by rewrite <- Hn, drop_app_length.
  - apply lit_matcher_Some. by rewrite HasPrefix_app.
  - rewrite length_app. lia.
Qed.

Lemma ReplaceAll_copy old new c t :
  HasPrefix (c :: t) old = false →
  ReplaceAll (c :: t) old new = c :: ReplaceAll t old new.
Proof. intros H. apply scan_copy. by apply lit_matcher_None. Qed.

(** Text whose bytes never start [old] is quiet. *)
Lemma lit_quiet_first o l new w :
  o ∉ w → quiet (lit_matcher (o :: l) new) w.
Proof.
  intros Ho w1 w2 y -> Hne. apply lit_matcher_None.
  destruct w2 as [|c w2]; [done|]. simpl.
  destruct (Ascii.eqb_spec o c) as [->|]; [|done].
  exfalso. apply Ho. set_solver.
Qed.

(** A first byte that [old] does not repeat after its own first byte ends
    every earlier match. *)
Lemma lit_stops_before o l new c w :
  c ∉ l → stops_before (lit_matcher (o :: l) new) (c :: w).
Proof.
  intros Hc x y r n Hx [Hp [_ ->]]%lit_matcher_Some.
  destruct x as [|b x]; [done|]. simpl in *.
  apply andb_prop in Hp as [_ Hp].
  rewrite HasPrefix_stop in Hp by by apply existsb_eqb_false.
  apply HasPrefix_length in Hp. lia.
Qed.

Lemma lit_splits_at o l new a c z :
  c ∉ l → splits_at (lit_matcher (o :: l) new) a (c :: z).
Proof.
  intros Hc a1 a2 -> Hne. destruct a2 as [|b a2]; [done|].
  assert (HasPrefix ((b :: a2) ++ c :: z) (o :: l) = HasPrefix (b :: a2) (o :: l)) as E.
  { simpl. by rewrite HasPrefix_stop by by apply existsb_eqb_false. }
  split.
  - unfold lit_matcher. by rewrite E.
  - intros r n [Hp [_ ->]]%lit_matcher_Some. by apply HasPrefix_length.
Qed.

(** An occurrence of [old] that cannot overlap another one is replaced
    where it stands. *)
Lemma ReplaceAll_occurrence o l new a b :
  o ∉ l →
  ReplaceAll (a ++ (o :: l) ++ b) (o :: l) new =
  ReplaceAll a (o :: l) new ++ new ++ ReplaceAll b (o :: l) new.
Proof.
  intros Hl. unfold ReplaceAll at 1.
  rewrite scan_app.
  - fold (ReplaceAll a (o :: l) new). fold (ReplaceAll ((o :: l) ++ b) (o :: l) new).
    by rewrite ReplaceAll_match.
  - simpl. by apply lit_splits_at.
Qed.

(** What the loop writes starts with a byte of the text or with [new]. *)
Lemma ReplaceAll_prefix_back old v new q t :
  v ∉ q →
  HasPrefix (ReplaceAll t old (v :: new)) q = true → HasPrefix t q = true.
Proof.
  intros Hv. revert t. induction q as [|a q IH]; intros t; [done|].
  destruct t as [|c t]; [done|]. unfold ReplaceAll. rewrite scan_step.
  destruct (lit_matcher old (v :: new) (c :: t)) as [[r [|n]]|] eqn:Hm.
  - simpl. intros [-> H]%andb_prop. rewrite IH; [done|set_solver|done].
  - apply lit_matcher_Some in Hm as (_ & -> & _). simpl.
    intros [E%Ascii.eqb_eq _]%andb_prop. set_solver.
  - simpl. intros [-> H]%andb_prop. rewrite IH; [done|set_solver|done].
Qed.

(** The loop creates no occurrence of a text that cannot overlap [new]. *)
Lemma ReplaceAll_no_new_occurrence old v new q0 q s :
  v ∉ q0 :: q → q0 ∉ v :: new →
  contains (q0 :: q) (ReplaceAll s old (v :: new)) → contains (q0 :: q) s.
Proof.
  intros Hv Hq. unfold ReplaceAll. revert s.
  apply (scan_induction (lit_matcher old (v :: new))
    (λ s, contains (q0 :: q) (scan (lit_matcher old (v :: new)) s)
          → contains (q0 :: q) s)).
  - intros H. exact H.
  - intros c t Hm -> IH [Hk | H]%contains_cons_inv.
    + exists []. simpl. apply HasPrefix_spec in Hk. simpl in Hk.
      apply andb_prop in Hk as [->%Ascii.eqb_eq Hk].
      apply ReplaceAll_prefix_back in Hk; [|set_solver].
      apply HasPrefix_spec in Hk as [k ->]. by exists k.
    + by apply contains_cons, IH.
  - intros c t r n (_ & -> & _)%lit_matcher_Some -> IH
      [H | H]%contains_app_inv; [done|].
    apply contains_cons. by eapply contains_drop, IH.
Qed.

(** After the loop no occurrence of [old] is left, when [old] and [new]
    cannot overlap. *)
Lemma ReplaceAll_none_left o l v new s :
  v ∉ o :: l → o ∉ v :: new →
  ¬ contains (o :: l) (ReplaceAll s (o :: l) (v :: new)).
Proof.
  intros Hv Hq. unfold ReplaceAll. revert s.
  apply (scan_induction (lit_matcher (o :: l) (v :: new))
    (λ s, ¬ contains (o :: l) (scan (lit_matcher (o :: l) (v :: new)) s))).
  - intros ([|??] & b & E); discriminate.
  - intros c t Hm -> IH [Hk | H]%contains_cons_inv; [|done].
    apply HasPrefix_spec in Hk. simpl in Hk.
    apply andb_prop in Hk as [Hoc Hk].
    apply ReplaceAll_prefix_back in Hk; [|set_solver].
    apply (Hm (v :: new) (length l)). apply lit_matcher_Some.
    simpl. by rewrite Hoc, Hk.
  - intros c t r n (_ & -> & _)%lit_matcher_Some -> IH
      [H | H]%contains_app_inv; done.
Qed.

(** ** Patterns that start with literal text *)

Lemma re_matcher_stop_lit o l r tmpl c b x z :
  rejects (Cat (Lit l) r) c = true →
  re_matcher (Cat (Lit (o :: l)) r) tmpl (b :: x ++ c :: z)
  = re_matcher (Cat (Lit (o :: l)) r) tmpl (b :: x).
Proof.
  intros Hc. unfold re_matcher. rewrite !exec_lit_cons.
  destruct (Ascii.eqb o b); [|done]. rewrite exec_stop by done.
  destruct (exec (Cat (Lit l) r) x) as [|[cap rest] t] eqn:Hx; [done|].
  assert (length rest ≤ length x) as Hlen.
  { apply (exec_length (Cat (Lit l) r) x (cap, rest)).
    rewrite Hx. apply list_elem_of_here. }
  cbn [fmap list_fmap fst snd]. cbn [length]. rewrite !length_app. cbn [length].
  replace (S (length x + S (length z)) - (length rest + S (length z)))
    with (S (length x) - length rest) by lia.
  rewrite app_comm_cons. by rewrite take_app_le by (simpl; lia).
Qed.

Lemma re_stops_before o l r tmpl c w :
  rejects (Cat (Lit l) r) c = true →
  stops_before (re_matcher (Cat (Lit (o :: l)) r) tmpl) (c :: w).
Proof.
  intros Hc x y rep n Hx Hm. destruct x as [|b x]; [done|].
  simpl in Hm. rewrite re_matcher_stop_lit in Hm by done.
  by apply re_matcher_length in Hm.
Qed.

Lemma re_splits_at o l r tmpl a c z :
  rejects (Cat (Lit l) r) c = true →
  splits_at (re_matcher (Cat (Lit (o :: l)) r) tmpl) a (c :: z).
Proof.
  intros Hc a1 a2 -> Hne. destruct a2 as [|b a2]; [done|]. split.
  - simpl. by apply re_matcher_stop_lit.
  - intros rep n Hm. by apply re_matcher_length in Hm.
Qed.

Lemma re_matcher_lit_fail l r tmpl s :
  HasPrefix s l = false → re_matcher (Cat (Lit l) r) tmpl s = None.
Proof. intros H. by apply re_matcher_none, exec_lit_fail. Qed.

Lemma re_quiet_first o l r tmpl w :
  o ∉ w → quiet (re_matcher (Cat (Lit (o :: l)) r) tmpl) w.
Proof.
  intros Ho w1 w2 y -> Hne. apply re_matcher_lit_fail.
  destruct w2 as [|c w2]; [done|]. simpl.
  destruct (Ascii.eqb_spec o c) as [->|]; [|done].
  exfalso. apply Ho. set_solver.
Qed.

(** ** The checkbox steps *)

(** A byte is not in a given text. *)
Ltac absent := apply existsb_eqb_false; vm_compute; reflexivity.

(** No match starts in a given text: one position after the other. *)
Ltac quiet_text :=
  repeat (apply quiet_cons; [intros ?; reflexivity|]); apply quiet_nil.

(** A text that a step leaves alone and that ends every earlier match is
    copied where it stands, and the step works on either side of it by
    itself. *)
Lemma scan_around matcher a w z :
  splits_at matcher a (w ++ z) → quiet matcher w →
  scan matcher (a ++ w ++ z) = scan matcher a ++ w ++ scan matcher z.
Proof. intros Hs Hq. by rewrite scan_app, scan_quiet. Qed.

Lemma checked_around_checkbox a b :
  rewrite_checked (a ++ checkbox ++ b)
  = rewrite_checked a ++ checkbox ++ rewrite_checked b.
Proof.
  apply scan_around.
  - apply (lit_splits_at "["%char (bytes "x]") _ _ "<"%char). absent.
  - apply (lit_quiet_first "["%char (bytes "x]")). absent.
Qed.

Lemma guidance_around_checkbox a b :
  rewrite_guidance (a ++ checkbox ++ b)
  = rewrite_guidance a ++ checkbox ++ rewrite_guidance b.
Proof.
  apply scan_around.
  - apply (lit_splits_at "/"%char (bytes "guidance/") _ _ "<"%char). absent.
  - quiet_text.
Qed.

Lemma guidance_around_checkbox_checked a b :
  rewrite_guidance (a ++ checkbox_checked ++ b)
  = rewrite_guidance a ++ checkbox_checked ++ rewrite_guidance b.
Proof.
  apply scan_around.
  - apply (lit_splits_at "/"%char (bytes "guidance/") _ _ "<"%char). absent.
  - quiet_text.
Qed.

Lemma unchecked_around_checked_source a b :
  rewrite_unchecked (a ++ bytes "[x]" ++ b)
  = rewrite_unchecked a ++ bytes "[x]" ++ rewrite_unchecked b.
Proof.
  apply scan_around.
  - apply (lit_splits_at "["%char (bytes " ]") _ _ "["%char). absent.
  - quiet_text.
Qed.

(** The three literal steps on a [[ ]]: the checkbox, where it stands. *)
Lemma literal_steps_unchecked a b :
  literal_steps (a ++ bytes "[ ]" ++ b)
  = literal_steps a ++ checkbox ++ literal_steps b.
Proof.
  unfold literal_steps. unfold rewrite_unchecked at 1.
  rewrite (ReplaceAll_occurrence "["%char (bytes " ]")) by absent.
  fold (rewrite_unchecked a). fold (rewrite_unchecked b).
  by rewrite checked_around_checkbox, guidance_around_checkbox.
Qed.

(** The three literal steps on a [[x]]: the checked checkbox, where it
    stands. *)
Lemma literal_steps_checked a b :
  literal_steps (a ++ bytes "[x]" ++ b)
  = literal_steps a ++ checkbox_checked ++ literal_steps b.
Proof.
  unfold literal_steps. rewrite unchecked_around_checked_source.
  unfold rewrite_checked at 1.
  rewrite (ReplaceAll_occurrence "["%char (bytes "x]")) by absent.
  fold (rewrite_checked (rewrite_unchecked a)).
  fold (rewrite_checked (rewrite_unchecked b)).
  by rewrite guidance_around_checkbox_checked.
Qed.

Lemma no_unchecked_source_left t :
  ¬ contains (bytes "[ ]")
      (rewrite_guidance (rewrite_checked (rewrite_unchecked t))).
Proof.
  intros H.
  apply (ReplaceAll_no_new_occurrence _ "h"%char) in H; [|absent..].
  apply (ReplaceAll_no_new_occurrence _ "<"%char) in H; [|absent..].
  revert H. apply (ReplaceAll_none_left "["%char (bytes " ]") "<"%char); absent.
Qed.

Lemma no_checked_source_left t :
  ¬ contains (bytes "[x]") (rewrite_guidance (rewrite_checked t)).
Proof.
  intros H.
  apply (ReplaceAll_no_new_occurrence _ "h"%char) in H; [|absent..].
  revert H. apply (ReplaceAll_none_left "["%char (bytes "x]") "<"%char); absent.
Qed.

(** C7 (as amended): in the text that reaches the checkbox steps, that is
    after the four pattern rules, every [[ ]] is replaced where it stands by
    the disabled checkbox and every [[x]] by the disabled, checked one: the
    output of [fixLinks] is the rewritten text before the occurrence, the
    markup, and the rewritten text after it.  The output of [fixLinks] holds
    neither [[ ]] nor [[x]].  Each of the two steps by itself replaces every
    occurrence of its text where it stands. *)
Theorem checkbox_substitution (input : list ascii) :
  (∀ a b, before_checkboxes input = a ++ bytes "[ ]" ++ b →
     fixLinks input = literal_steps a ++ checkbox ++ literal_steps b) ∧
  (∀ a b, before_checkboxes input = a ++ bytes "[x]" ++ b →
     fixLinks input = literal_steps a ++ checkbox_checked ++ literal_steps b) ∧
  ¬ contains (bytes "[ ]") (fixLinks input) ∧
  ¬ contains (bytes "[x]") (fixLinks input) ∧
  (∀ a b, rewrite_unchecked (a ++ bytes "[ ]" ++ b)
          = rewrite_unchecked a ++ checkbox ++ rewrite_unchecked b) ∧
  (∀ a b, rewrite_checked (a ++ bytes "[x]" ++ b)
          = rewrite_checked a ++ checkbox_checked ++ rewrite_checked b).
Proof.
  assert (fixLinks input = literal_steps (before_checkboxes input)) as ->
    by reflexivity.
  repeat split.
  - intros a b ->. apply literal_steps_unchecked.
  - intros a b ->. apply literal_steps_checked.
  - apply no_unchecked_source_left.
  - apply no_checked_source_left.
  - intros a b. apply (ReplaceAll_occurrence "["%char (bytes " ]")). absent.
  - intros a b. apply (ReplaceAll_occurrence "["%char (bytes "x]")). absent.
Qed.

(** ** The cross-document rule *)

Lemma scan_skip matcher a z :
  (∀ a1 a2, a = a1 ++ a2 → a2 ≠ [] → matcher (a2 ++ z) = None) →
  scan matcher (a ++ z) = a ++ scan matcher z.
Proof.
  induction a as [|c a IH]; intros H; [done|].
  simpl. rewrite scan_copy by by apply (H [] (c :: a)).
  f_equal. apply IH. intros a1 a2 -> Hne. by apply (H (c :: a1) a2).
Qed.

Lemma forallb_not_in (cls : ascii → bool) c l :
  cls c = false → forallb cls l = true → c ∉ l.
Proof.
  intros Hc Hl Hin. apply list_elem_of_In in Hin.
  rewrite forallb_forall in Hl. rewrite (Hl _ Hin) in Hc. done.
Qed.

Lemma exec_star_head cls run rest :
  forallb cls run = true →
  match rest with [] => True | c :: _ => cls c = false end →
  ∃ t, exec (Star cls) (run ++ rest) = (None, rest) :: t.
Proof.
  intros Hrun Hrest. simpl.
  destruct (greedy_run cls run rest Hrun Hrest) as [others ->].
  simpl. by eexists.
Qed.

Lemma exec_group_app r u rest cap t :
  exec r (u ++ rest) = (cap, rest) :: t →
  ∃ t', exec (Group r) (u ++ rest) = (Some u, rest) :: t'.
Proof.
  intros H. simpl. rewrite H. simpl. rewrite length_app.
  replace (length u + length rest - length rest) with (length u) by lia.
  rewrite take_app_length. by eexists.
Qed.

Lemma exec_cat_app r1 r2 s c1 s1 t1 c2 s2 t2 :
  exec r1 s = (c1, s1) :: t1 → exec r2 s1 = (c2, s2) :: t2 →
  ∃ t, exec (Cat r1 r2) s = (first_capture c1 c2, s2) :: t.
Proof. intros H1 H2. by apply (exec_cat_head r1 r2 s (c1, s1) t1 (c2, s2) t2). Qed.

Lemma md_exec ds b :
  ds ≠ [] → forallb is_digit ds = true →
  ∃ t, exec mdLinkPattern (bytes "#{" ++ ds ++ bytes "}" ++ b)
       = (Some ds, b) :: t.
Proof.
  intros Hne Hds.
  destruct (exec_plus_head is_digit ds (bytes "}" ++ b) Hne Hds eq_refl)
    as [t1 H1].
  apply exec_group_app in H1 as [t2 H2].
  destruct (exec_cat_app _ (Lit (bytes "}")) _ _ _ _ None b [] H2 eq_refl)
    as [t3 H3].
  apply (exec_cat_app (Lit (bytes "#{")) _ (bytes "#{" ++ ds ++ bytes "}" ++ b)
    None _ [] _ _ _ eq_refl H3).
Qed.

Lemma ReplaceAllString_head re tmpl consumed rest cap t :
  consumed ≠ [] → exec re (consumed ++ rest) = (cap, rest) :: t →
  ReplaceAllString re (consumed ++ rest) tmpl
  = expand tmpl consumed cap ++ ReplaceAllString re rest tmpl.
Proof.
  intros Hne Hx. unfold ReplaceAllString.
  pose proof (re_matcher_head re tmpl consumed rest cap t Hx) as Hm.
  assert (∃ n, length consumed = S n) as [n Hn].
  { destruct consumed; [done|by eexists]. }
  rewrite Hn in Hm. rewrite (scan_match _ _ _ _ Hm) by (rewrite length_app; lia).
  by rewrite <- Hn, drop_app_length.
Qed.

Lemma md_occurrence ds b :
  ds ≠ [] → forallb is_digit ds = true →
  rewrite_md (bytes "#{" ++ ds ++ bytes "}" ++ b) = md_link ds ++ rewrite_md b.
Proof.
  intros Hne Hds. destruct (md_exec ds b Hne Hds) as [t Ht].
  unfold rewrite_md.
  pose proof (ReplaceAllString_head mdLinkPattern md_template
    (bytes "#{" ++ ds ++ bytes "}") b (Some ds) t) as H.
  rewrite <- !app_assoc in H. rewrite H; [|done|done].
  f_equal.
Qed.

(** C5, the rule by itself: every [#{digits}] of the text is replaced, where
    it stands, by the link icon and the hyperlink to [digits.md]. *)
Lemma rewrite_md_occurrence a ds b :
  ds ≠ [] → forallb is_digit ds = true →
  rewrite_md (a ++ bytes "#{" ++ ds ++ bytes "}" ++ b)
  = rewrite_md a ++ md_link ds ++ rewrite_md b.
Proof.
  intros Hne Hds. unfold rewrite_md at 1. unfold ReplaceAllString.
  rewrite scan_app.
  - fold (ReplaceAllString mdLinkPattern (bytes "#{" ++ ds ++ bytes "}" ++ b) md_template).
    fold (rewrite_md (bytes "#{" ++ ds ++ bytes "}" ++ b)).
    by rewrite md_occurrence.
  - apply (re_splits_at "#"%char (bytes "{")). reflexivity.
Qed.

(** ** What the rules leave alone *)

Lemma md_link_split ds :
  md_link ds
  = (link_icon ++ bytes " <a href=" ++ [dq]) ++ ds
    ++ (bytes ".md" ++ dq :: bytes ">") ++ ds ++ bytes ".md</a>".
Proof. reflexivity. Qed.

Lemma md_link_head ds : md_link ds = "240"%char :: tail (md_link ds).
Proof. reflexivity. Qed.

Lemma quiet_md_link matcher ds :
  quiet matcher (link_icon ++ bytes " <a href=" ++ [dq]) →
  quiet matcher ds →
  quiet matcher (bytes ".md" ++ dq :: bytes ">") →
  quiet matcher (bytes ".md</a>") →
  quiet matcher (md_link ds).
Proof.
  intros HA Hds HB HC. rewrite md_link_split.
  apply quiet_app; [done|]. apply quiet_app; [done|].
  apply quiet_app; [done|]. by apply quiet_app.
Qed.

(** No rule matches from inside the link the first rule writes. *)
Lemma rules_quiet_md_link ds matcher :
  forallb is_digit ds = true → matcher ∈ rule_matchers →
  quiet matcher (md_link ds).
Proof.
  intros Hds Hin. unfold rule_matchers in Hin.
  repeat (apply elem_of_cons in Hin as [-> | Hin]);
    [ .. | by apply elem_of_nil in Hin ];
    (apply quiet_md_link;
     [ quiet_text
     | first [ apply re_quiet_first | apply lit_quiet_first ];
       (eapply forallb_not_in; [|exact Hds]); reflexivity
     | quiet_text
     | quiet_text ]).
Qed.

Lemma Contains_false_quiet l r tmpl s :
  Contains s l = false → scan (re_matcher (Cat (Lit l) r) tmpl) s = s.
Proof.
  induction s as [|c s IH]; [done|]. simpl.
  intros [Hp Hc]%orb_false_elim.
  rewrite scan_copy by by apply re_matcher_lit_fail. by rewrite IH.
Qed.

(** ** The link through the later rules *)

Lemma image_open_cons b a :
  image_open (b :: a)
  = (HasPrefix (b :: a) img_prefix
     && match drop (length img_prefix) (b :: a) with
        | c :: _ => is_img_id c
        | [] => false
        end
     && negb (existsb (Ascii.eqb ")"%char) (b :: a)))
    || image_open a.
Proof. reflexivity. Qed.

Lemma image_open_spec a :
  image_open a = false →
  ∀ a1 a2, a = a1 ++ a2 →
    HasPrefix a2 img_prefix = true →
    (∃ c k, drop (length img_prefix) a2 = c :: k ∧ is_img_id c = true) →
    ")"%char ∈ a2.
Proof.
  induction a as [|b a IH]; intros H a1 a2 E Hp (c & k & Hd & Hc).
  - destruct a1, a2; done.
  - rewrite image_open_cons in H. apply orb_false_elim in H as [H1 H2].
    destruct a1 as [|b' a1]; simpl in E.
    + subst a2. rewrite Hp in H1. cbn [andb] in H1.
      assert (match drop (length img_prefix) (b :: a) with
              | c :: _ => is_img_id c
              | [] => false
              end = true) as Hnext by by rewrite Hd.
      rewrite Hnext in H1. cbn [andb] in H1.
      apply negb_false_iff in H1.
      apply existsb_exists in H1 as (x & Hx & ->%Ascii.eqb_eq).
      by apply list_elem_of_In.
    + injection E as -> ->. by eapply IH; [|done|done|eexists _, _].
Qed.

(** No image URL is open in the text [a]: the image rule works on [a] as
    it does when the text ends there, whatever follows that does not go on
    with the prefix or the id. *)
Lemma img_splits_at a c z :
  image_open a = false → c ∉ img_prefix → is_img_id c = false →
  splits_at (re_matcher imgLinkPattern [Submatch 1]) a (c :: z).
Proof.
  intros Hopen Hc Hid a1 a2 E Hne. split;
    [|intros r n Hm; by apply re_matcher_length in Hm].
  destruct (HasPrefix a2 img_prefix) eqn:Hp.
  - pose proof Hp as [v Hv]%HasPrefix_spec.
    assert ((∃ d k, v = d :: k ∧ is_img_id d = true)
            ∨ ¬ (∃ d k, v = d :: k ∧ is_img_id d = true))
      as [(d & k & Hdk & Hd) | Hno].
    { destruct v as [|d k]; [right; by intros (? & ? & ? & ?)|].
      destruct (is_img_id d) eqn:Hd; [left; by exists d, k|].
      right. intros (? & ? & [= <- <-] & ?). congruence. }
    + subst v. assert (")"%char ∈ a2) as Hin.
      { apply (image_open_spec a Hopen a1 a2 E Hp). exists d, k.
        split; [|done]. by rewrite Hv, drop_app_length. }
      apply list_elem_of_split in Hin as (x & y & Hxy).
      destruct x as [|b x].
      { exfalso. rewrite Hv in Hxy. discriminate Hxy. }
      rewrite Hxy. simpl. rewrite <- app_assoc. simpl.
      unfold imgLinkPattern, img_prefix. simpl bytes.
      rewrite !re_matcher_stop_lit by reflexivity. done.
    + assert (exec (Cat (Group (Plus is_img_id)) (Star not_rparen)) v = []
              ∧ exec (Cat (Group (Plus is_img_id)) (Star not_rparen))
                  (v ++ c :: z) = []) as [E1 E2].
      { destruct v as [|d k]; simpl.
        - by rewrite Hid.
        - destruct (is_img_id d) eqn:Hd; [|done].
          exfalso. apply Hno. by exists d, k. }
      rewrite Hv, <- app_assoc. unfold re_matcher, imgLinkPattern.
      assert (∀ w, exec (Cat (Group (Plus is_img_id)) (Star not_rparen)) w = [] →
        exec (Cat (Lit img_prefix)
                (Cat (Group (Plus is_img_id)) (Star not_rparen)))
             (img_prefix ++ w) = []) as Hcat.
      { intros w Hw.
        change (exec (Cat (Lit img_prefix)
                  (Cat (Group (Plus is_img_id)) (Star not_rparen)))
                  (img_prefix ++ w))
          with (m1 ← exec (Lit img_prefix) (img_prefix ++ w);
                (λ m2, (first_capture m1.1 m2.1, m2.2)) <$>
                  exec (Cat (Group (Plus is_img_id)) (Star not_rparen)) m1.2).
        rewrite exec_lit_head, bind_cons. cbn [fst snd]. by rewrite Hw. }
      by rewrite !Hcat.
  - unfold imgLinkPattern. rewrite !re_matcher_lit_fail; [done|done|].
    rewrite HasPrefix_stop; [done|]. by apply existsb_eqb_false.
Qed.

Lemma md_link_around matcher a ds z :
  forallb is_digit ds = true → matcher ∈ rule_matchers →
  splits_at matcher a (md_link ds ++ z) →
  scan matcher (a ++ md_link ds ++ z)
  = scan matcher a ++ md_link ds ++ scan matcher z.
Proof.
  intros Hds Hin Hs. apply scan_around; [done|].
  by apply rules_quiet_md_link.
Qed.

(** The attachment rule and the icon rule work around the link. *)
Lemma rewrite_file_around_md_link a ds z :
  forallb is_digit ds = true →
  rewrite_file (a ++ md_link ds ++ z)
  = rewrite_file a ++ md_link ds ++ rewrite_file z.
Proof.
  intros Hds. apply md_link_around; [done|set_solver|].
  rewrite md_link_head.
  apply (re_splits_at "h"%char (bytes "ttps://docbase.io/file_attachments/")).
  reflexivity.
Qed.

Lemma rewrite_icon_around_md_link a ds z :
  forallb is_digit ds = true →
  rewrite_icon (a ++ md_link ds ++ z)
  = rewrite_icon a ++ md_link ds ++ rewrite_icon z.
Proof.
  intros Hds. apply md_link_around; [done|set_solver|].
  rewrite md_link_head. apply (re_splits_at "!"%char (bytes "[")).
  reflexivity.
Qed.

Lemma before_images_around_md_link a ds b :
  ds ≠ [] → forallb is_digit ds = true →
  before_images (a ++ bytes "#{" ++ ds ++ bytes "}" ++ b)
  = before_images a ++ md_link ds ++ before_images b.
Proof.
  intros Hne Hds. unfold before_images.
  rewrite rewrite_md_occurrence by done.
  rewrite rewrite_file_around_md_link by done.
  by rewrite rewrite_icon_around_md_link by done.
Qed.

(** The image rule works around the link when no image URL is open in front
    of it. *)
Lemma rewrite_img_around_md_link a ds z :
  forallb is_digit ds = true → image_open a = false →
  rewrite_img (a ++ md_link ds ++ z)
  = rewrite_img a ++ md_link ds ++ rewrite_img z.
Proof.
  intros Hds Hopen. apply md_link_around; [done|set_solver|].
  rewrite md_link_head. apply img_splits_at; [done|(apply existsb_eqb_false; vm_compute; reflexivity)|reflexivity].
Qed.

Lemma literal_steps_around_md_link a ds z :
  forallb is_digit ds = true →
  literal_steps (a ++ md_link ds ++ z)
  = literal_steps a ++ md_link ds ++ literal_steps z.
Proof.
  intros Hds. unfold literal_steps.
  assert (∀ o l new, lit_matcher (o :: l) new ∈ rule_matchers →
    "240"%char ∉ l → ∀ x y,
    ReplaceAll (x ++ md_link ds ++ y) (o :: l) new
    = ReplaceAll x (o :: l) new ++ md_link ds ++ ReplaceAll y (o :: l) new)
    as Hstep.
  { intros o l new Hin Hl x y. apply md_link_around; [done|done|].
    rewrite md_link_head. by apply lit_splits_at. }
  unfold rewrite_unchecked at 1.
  rewrite (Hstep "["%char (bytes " ]")); [|set_solver|(apply existsb_eqb_false; vm_compute; reflexivity)].
  unfold rewrite_checked at 1.
  rewrite (Hstep "["%char (bytes "x]")); [|set_solver|(apply existsb_eqb_false; vm_compute; reflexivity)].
  unfold rewrite_guidance at 1.
  rewrite (Hstep "/"%char (bytes "guidance/")); [|set_solver|(apply existsb_eqb_false; vm_compute; reflexivity)].
  done.
Qed.

(** C5 (as amended): the first rule replaces every [#{digits}] of the input,
    where it stands, by the link icon and a hyperlink whose target and text
    are [digits.md]; and the link stands in the output of [fixLinks], between
    the rewritten text before it and the rewritten text after it, unless an
    image URL is open in the text before it as that text reaches the image
    rule. *)
Theorem cross_document_link (a ds b : list ascii) :
  ds ≠ [] → forallb is_digit ds = true →
  rewrite_md (a ++ bytes "#{" ++ ds ++ bytes "}" ++ b)
  = rewrite_md a ++ md_link ds ++ rewrite_md b ∧
  (image_open (before_images a) = false →
   fixLinks (a ++ bytes "#{" ++ ds ++ bytes "}" ++ b)
   = fixLinks a ++ md_link ds ++ fixLinks b).
Proof.
  intros Hne Hds. split; [by apply rewrite_md_occurrence|].
  intros Hopen.
  assert (∀ s, fixLinks s = literal_steps (rewrite_img (before_images s)))
    as Hfix by reflexivity.
  rewrite !Hfix. rewrite before_images_around_md_link by done.
  rewrite rewrite_img_around_md_link by done.
  by rewrite literal_steps_around_md_link.
Qed.

(** ** The image rule *)

Lemma HasPrefix_app_long u x p :
  length p ≤ length u → HasPrefix (u ++ x) p = HasPrefix u p.
Proof.
  revert u. induction p as [|a p IH]; intros u Hlen; [done|].
  destruct u as [|b u]; simpl in *; [lia|]. rewrite IH by lia. done.
Qed.

Lemma starts_nowhere_spec p a z :
  starts_nowhere p a z = true →
  ∀ a1 a2, a = a1 ++ a2 → a2 ≠ [] → HasPrefix (a2 ++ z) p = false.
Proof.
  induction a as [|c a IH]; intros H a1 a2 E Hne.
  - by destruct a1, a2.
  - simpl in H. apply andb_prop in H as [H1 H2].
    destruct a1 as [|c' a1]; simpl in E.
    + subst a2. by apply negb_true_iff in H1.
    + injection E as -> ->. by eapply IH.
Qed.

Lemma img_exec ident junk rest :
  ident ≠ [] → forallb is_img_id ident = true →
  forallb not_rparen junk = true →
  (∀ c, head (junk ++ rest) = Some c → is_img_id c = false) →
  (∀ c, head rest = Some c → c = ")"%char) →
  ∃ t, exec imgLinkPattern (img_prefix ++ ident ++ junk ++ rest)
       = (Some ident, rest) :: t.
Proof.
  intros Hne Hid Hjunk Hend Hrest.
  destruct (exec_plus_head is_img_id ident (junk ++ rest) Hne Hid) as [t1 H1].
  { destruct (junk ++ rest) as [|c ?]; [done|]. by apply Hend. }
  apply exec_group_app in H1 as [t2 H2].
  destruct (exec_star_head not_rparen junk rest Hjunk) as [t3 H3].
  { destruct rest as [|c ?]; [done|]. by rewrite (Hrest c). }
  destruct (exec_cat_app _ _ _ _ _ _ _ _ _ H2 H3) as [t4 H4].
  apply (exec_cat_app (Lit img_prefix) _ (img_prefix ++ ident ++ junk ++ rest)
    None _ [] _ _ _ (exec_lit_head _ _) H4).
Qed.

Lemma img_occurrence ident junk rest :
  ident ≠ [] → forallb is_img_id ident = true →
  forallb not_rparen junk = true →
  (∀ c, head (junk ++ rest) = Some c → is_img_id c = false) →
  (∀ c, head rest = Some c → c = ")"%char) →
  rewrite_img (img_prefix ++ ident ++ junk ++ rest) = ident ++ rewrite_img rest.
Proof.
  intros Hne Hid Hjunk Hend Hrest.
  destruct (img_exec ident junk rest) as [t Ht]; try done.
  pose proof (ReplaceAllString_head imgLinkPattern [Submatch 1]
      (img_prefix ++ ident ++ junk) rest (Some ident) t) as H.
  rewrite <- !app_assoc in H. unfold rewrite_img.
  rewrite H.
  + unfold expand. cbn [fmap list_fmap expand_piece concat default].
    unfold Datatypes.id. by rewrite app_nil_r.
  + intros E. apply app_eq_nil in E as [E _]. discriminate E.
  + exact Ht.
Qed.

Lemma img_skip a z :
  starts_nowhere img_prefix a img_prefix = true →
  rewrite_img (a ++ img_prefix ++ z) = a ++ rewrite_img (img_prefix ++ z).
Proof.
  intros Ha. unfold rewrite_img, ReplaceAllString. apply scan_skip.
  intros a1 a2 E Hne2. unfold imgLinkPattern. apply re_matcher_lit_fail.
  rewrite app_assoc. rewrite HasPrefix_app_long.
  + by eapply starts_nowhere_spec.
  + rewrite length_app. lia.
Qed.

(** C6 (as amended): the leftmost image URL (the prefix, then the longest
    run [ident] of identifier bytes) is replaced, together with all the text
    [junk] that follows it up to the next closing parenthesis or the end of
    the input, by [ident] alone; the text before it is kept. *)
Theorem image_url_rewrite (a ident junk rest : list ascii) :
  starts_nowhere img_prefix a img_prefix = true →
  ident ≠ [] → forallb is_img_id ident = true →
  forallb not_rparen junk = true →
  (∀ c, head (junk ++ rest) = Some c → is_img_id c = false) →
  (∀ c, head rest = Some c → c = ")"%char) →
  rewrite_img (a ++ img_prefix ++ ident ++ junk ++ rest)
  = a ++ ident ++ rewrite_img rest.
Proof.
  intros Ha Hne Hid Hjunk Hend Hrest.
  rewrite img_skip by done. by rewrite img_occurrence.
Qed.

(** ** Rewritten markup under a second pass *)





(** ** The link rewriter at given inputs *)

Lemma not_contains s w : Contains s w = false → ¬ contains w s.
Proof. intros H Hc. apply Contains_spec in Hc. congruence. Qed.

Lemma is_contained s w : Contains s w = true → contains w s.
Proof. apply Contains_spec. Qed.



(** C5, as stated, fails: an image URL earlier in the text swallows the
    link, so the input holds [#{42}] and the output holds no hyperlink. *)
Lemma cross_document_link_swallowed :
  contains (bytes "#{42}")
    (bytes "https://image.docbase.io/uploads/a.png #{42}") ∧
  fixLinks (bytes "https://image.docbase.io/uploads/a.png #{42}")
  = bytes "a.png" ∧
  ¬ contains (hyperlink (bytes "42"))
      (fixLinks (bytes "https://image.docbase.io/uploads/a.png #{42}")).
Proof.
  split; [by apply is_contained; vm_compute|]. split; [by vm_compute|].
  apply not_contains. by vm_compute.
Qed.

Lemma cross_document_link_witness :
  rewrite_md (bytes "![p](https://image.docbase.io/uploads/a.png) see "
              ++ bytes "#{" ++ bytes "42" ++ bytes "}"
              ++ bytes " ![q](https://image.docbase.io/uploads/b.png)")
  = rewrite_md (bytes "![p](https://image.docbase.io/uploads/a.png) see ")
    ++ md_link (bytes "42")
    ++ rewrite_md (bytes " ![q](https://image.docbase.io/uploads/b.png)") ∧
  fixLinks (bytes "![p](https://image.docbase.io/uploads/a.png) see "
            ++ bytes "#{" ++ bytes "42" ++ bytes "}"
            ++ bytes " ![q](https://image.docbase.io/uploads/b.png)")
  = bytes "![p](a.png) see " ++ md_link (bytes "42") ++ bytes " ![q](b.png)".
Proof.
  destruct (cross_document_link
              (bytes "![p](https://image.docbase.io/uploads/a.png) see ")
              (bytes "42")
              (bytes " ![q](https://image.docbase.io/uploads/b.png)"))
    as [H1 H2].
  - intros E. discriminate E.
  - reflexivity.
  - split; [exact H1|]. apply H2. vm_compute. reflexivity.
Defined.

(** C6, as stated, fails: text after the URL that is no query string is
    discarded with it, up to the end of the input. *)
Lemma image_url_rewrite_consumes_text :
  rewrite_img (bytes "see https://image.docbase.io/uploads/a.png for details")
  = bytes "see a.png" ∧
  fixLinks (bytes "see https://image.docbase.io/uploads/a.png for details")
  = bytes "see a.png" ∧
  fixLinks (bytes "see https://image.docbase.io/uploads/a.png for details")
  ≠ bytes "see a.png for details".
Proof.
  split; [by vm_compute|]. split; [by vm_compute|].
  intros E. vm_compute in E. discriminate E.
Qed.

Lemma image_url_rewrite_witness :
  rewrite_img (bytes "![img](" ++ img_prefix ++ bytes "a-b.png" ++ bytes " =100x"
               ++ bytes ") text")
  = bytes "![img](" ++ bytes "a-b.png" ++ rewrite_img (bytes ") text").
Proof.
  apply (image_url_rewrite (bytes "![img](") (bytes "a-b.png") (bytes " =100x")
           (bytes ") text")).
  - reflexivity.
  - intros E. discriminate E.
  - reflexivity.
  - reflexivity.
  - intros c E. injection E as <-. reflexivity.
  - intros c E. injection E as <-. reflexivity.
Defined.

(** C7, as stated, fails: the file-icon rule runs first and takes the [[x]]
    of an icon's alternative text with it, so no checkbox is written. *)
Lemma checkbox_substitution_taken_by_icon :
  contains (bytes "[x]") (bytes "![x](/images/file_icons/a.svg)") ∧
  fixLinks (bytes "![x](/images/file_icons/a.svg)") = file_icon ∧
  ¬ contains checkbox_checked (fixLinks (bytes "![x](/images/file_icons/a.svg)")).
Proof.
  split; [by apply is_contained; vm_compute|]. split; [by vm_compute|].
  apply not_contains. by vm_compute.
Qed.

Lemma checkbox_substitution_witness :
  fixLinks (bytes "- [ ] buy milk" ++ bytes "[x]" ++ bytes " done")
  = literal_steps (bytes "- [ ] buy milk") ++ checkbox_checked
    ++ literal_steps (bytes " done") ∧
  fixLinks (bytes "- " ++ bytes "[ ]" ++ bytes " buy milk")
  = bytes "- " ++ checkbox ++ bytes " buy milk" ∧
  ¬ contains (bytes "[ ]") (fixLinks (bytes "- [ ] buy milk")).
Proof.
  destruct (checkbox_substitution
              (bytes "- [ ] buy milk" ++ bytes "[x]" ++ bytes " done"))
    as (_ & H2 & _ & _).
  destruct (checkbox_substitution (bytes "- " ++ bytes "[ ]" ++ bytes " buy milk"))
    as (H1 & _ & H3 & _).
  split; [apply H2; vm_compute; reflexivity|].
  split; [apply (H1 (bytes "- ") (bytes " buy milk")); vm_compute; reflexivity
         |exact H3].
Defined.

(** ** Suffixes *)

Lemma HasSuffix_spec s p : HasSuffix s p = true ↔ p `suffix_of` s.
Proof.
  unfold HasSuffix. rewrite HasPrefix_spec. split.
  - intros [k Hk]. exists (reverse k).
    apply (f_equal reverse) in Hk.
    by rewrite reverse_involutive, reverse_app, reverse_involutive in Hk.
  - intros [k ->]. exists (reverse k). by rewrite reverse_app.
Qed.

Lemma HasSuffix_false s p : HasSuffix s p = false ↔ ¬ p `suffix_of` s.
Proof.
  rewrite <- HasSuffix_spec. by destruct (HasSuffix s p).
Qed.

Lemma suffix_app_inv_l (q n x : list ascii) :
  q `suffix_of` n ++ x → q `suffix_of` x ∨ ∃ c, c ∈ n ∧ c ∈ q.
Proof.
  induction n as [|c n IH]; simpl; [by left|].
  destruct q as [|q0 q]; [intros _; left; apply suffix_nil|].
  intros [E | H]%suffix_cons_inv.
  - right. exists c. injection E as -> _. split; apply list_elem_of_here.
  - destruct (IH H) as [? | (c' & ? & ?)]; [by left|].
    right. exists c'. split; [by apply list_elem_of_further|done].
Qed.

(** ** A shortcode between two colons *)

Lemma HasPrefix_closing c k x z :
  c ∉ k →
  HasPrefix (x ++ c :: z) (k ++ [c])
  = HasPrefix x (k ++ [c]) || bool_decide (x = k).
Proof.
  revert x. induction k as [|a k IH]; intros x Hc.
  - destruct x as [|b x]; simpl.
    + by rewrite Ascii.eqb_refl.
    + by rewrite orb_false_r.
  - apply not_elem_of_cons in Hc as [Hca Hc].
    destruct x as [|b x]; simpl.
    + destruct (Ascii.eqb_spec a c); [congruence|done].
    + rewrite IH by done. destruct (Ascii.eqb_spec a b) as [->|Hab]; simpl.
      * f_equal. apply bool_decide_ext. split; congruence.
      * symmetry. apply bool_decide_eq_false. congruence.
Qed.

Lemma shortcode_inj k k' : shortcode k = shortcode k' → k = k'.
Proof.
  unfold shortcode. intros [= E]. by apply app_inj_tail in E as [-> _].
Qed.

(** What the loop writes when nothing was replaced. *)
Lemma ReplaceAll_unchanged old v new s :
  v ∉ ReplaceAll s old (v :: new) → ReplaceAll s old (v :: new) = s.
Proof.
  unfold ReplaceAll. revert s.
  apply (scan_induction (lit_matcher old (v :: new))
    (λ s, v ∉ scan (lit_matcher old (v :: new)) s
          → scan (lit_matcher old (v :: new)) s = s)).
  - done.
  - intros c t _ -> IH [_ H]%not_elem_of_cons. by rewrite IH.
  - intros c t r n (_ & -> & _)%lit_matcher_Some -> _ H.
    exfalso. apply H. set_solver.
Qed.

(** A text without a byte of [new] that ends what the loop writes ends the
    input. *)
Lemma ReplaceAll_suffix_back old v new q s :
  (∀ c, c ∈ v :: new → c ∉ q) →
  q `suffix_of` ReplaceAll s old (v :: new) → q `suffix_of` s.
Proof.
  intros Hq. unfold ReplaceAll. revert s.
  apply (scan_induction (lit_matcher old (v :: new))
    (λ s, q `suffix_of` scan (lit_matcher old (v :: new)) s → q `suffix_of` s)).
  - done.
  - intros c t _ -> IH H. destruct q as [|q0 q]; [apply suffix_nil|].
    apply suffix_cons_inv in H as [E | H].
    + injection E as -> E.
      fold (ReplaceAll t old (v :: new)) in E.
      rewrite ReplaceAll_unchanged in E; [by subst|].
      rewrite <- E. intros Hv. apply (Hq v); set_solver.
    + by apply suffix_cons_r, IH.
  - intros c t r n (_ & -> & _)%lit_matcher_Some -> IH
      [H | (c' & H1 & H2)]%suffix_app_inv_l.
    + apply suffix_cons_r. etrans; [by apply IH|]. apply suffix_drop.
    + by destruct (Hq c' H1).
Qed.

(** ** Entries of the dictionary *)

Arguments Ascii.eqb : simpl never.

Lemma entry_ok_key kv c :
  entry_ok kv = true → c ∈ kv.1 → is_ascii c = true ∧ c ≠ colon.
Proof.
  unfold entry_ok. intros [[Hk _]%andb_prop _]%andb_prop Hin.
  rewrite forallb_forall in Hk. apply list_elem_of_In in Hin.
  apply Hk in Hin. apply andb_prop in Hin as [H1 H2]. split; [done|].
  intros ->. by rewrite Ascii.eqb_refl in H2.
Qed.

Lemma entry_ok_colon kv : entry_ok kv = true → colon ∉ kv.1.
Proof. intros Hok Hin. by destruct (entry_ok_key kv colon Hok Hin). Qed.

Lemma entry_ok_glyph kv c : entry_ok kv = true → c ∈ kv.2 → is_ascii c = false.
Proof.
  unfold entry_ok. intros [[_ Hv]%andb_prop _]%andb_prop Hin.
  rewrite forallb_forall in Hv. apply list_elem_of_In in Hin.
  apply Hv in Hin. by apply negb_true_iff in Hin.
Qed.

Lemma entry_ok_nonempty kv : entry_ok kv = true → ∃ v new, kv.2 = v :: new.
Proof.
  unfold entry_ok. intros [_ Hne%negb_true_iff%bool_decide_eq_false]%andb_prop.
  destruct kv.2 as [|v new]; [done|by eexists _, _].
Qed.

Lemma shortcode_ascii kv c :
  entry_ok kv = true → c ∈ shortcode kv.1 → is_ascii c = true.
Proof.
  intros Hok. unfold shortcode.
  intros [-> | [Hin | ->%list_elem_of_singleton]%elem_of_app]%elem_of_cons;
    [done| |done].
  by destruct (entry_ok_key kv c Hok Hin).
Qed.

(** A glyph shares no byte with a shortcode of the dictionary or with what
    stands between its colons. *)
Lemma glyph_apart kv kv' c :
  entry_ok kv = true → entry_ok kv' = true → c ∈ kv.2 → c ∉ shortcode kv'.1.
Proof.
  intros Hok Hok' Hc Hin.
  pose proof (entry_ok_glyph kv c Hok Hc).
  pose proof (shortcode_ascii kv' c Hok' Hin). congruence.
Qed.

Lemma emoji_unit_head m :
  emoji_unit m → ∃ m0 z, m = m0 :: z ∧ (m0 = colon ∨ is_ascii m0 = false).
Proof.
  intros [(k & -> & _) | [Hne Hm]].
  - exists colon, (k ++ [colon]). by split; [|left].
  - destruct m as [|m0 z]; [done|]. exists m0, z. split; [done|right].
    simpl in Hm. by apply andb_prop in Hm as [?%negb_true_iff _].
Qed.

(** ** One turn of the loop around a unit *)

Lemma emoji_splits_at kv a m0 z :
  entry_ok kv = true →
  HasSuffix a (colon :: kv.1) = false →
  m0 = colon ∨ is_ascii m0 = false →
  splits_at (lit_matcher (shortcode kv.1) kv.2) a (m0 :: z).
Proof.
  intros Hok Ha Hm0 a1 a2 -> Hne.
  assert (HasPrefix (a2 ++ m0 :: z) (shortcode kv.1)
          = HasPrefix a2 (shortcode kv.1)) as E.
  { destruct Hm0 as [-> | Hm0].
    - destruct a2 as [|b0 a2]; [done|]. unfold shortcode. simpl.
      rewrite HasPrefix_closing by by apply entry_ok_colon.
      destruct (Ascii.eqb_spec colon b0) as [<-|]; [|reflexivity]. simpl.
      rewrite bool_decide_eq_false_2; [by rewrite orb_false_r|].
      intros ->. apply HasSuffix_false in Ha. apply Ha. by exists a1.
    - apply HasPrefix_stop. apply existsb_eqb_false. intros Hin.
      pose proof (shortcode_ascii kv m0 Hok Hin). congruence. }
  split.
  - unfold lit_matcher. by rewrite E.
  - intros r n [Hp [_ ->]]%lit_matcher_Some. by apply HasPrefix_length.
Qed.

Lemma emoji_unit_step kv m b :
  entry_ok kv = true → emoji_unit m →
  HasPrefix b (kv.1 ++ [colon]) = false →
  ReplaceAll (m ++ b) (shortcode kv.1) kv.2
  = (if bool_decide (m = shortcode kv.1) then kv.2 else m)
    ++ ReplaceAll b (shortcode kv.1) kv.2.
Proof.
  intros Hok Hm Hb. case_bool_decide as Heq.
  - subst m. by rewrite ReplaceAll_match.
  - unfold ReplaceAll. apply scan_skip. intros m1 m2 -> Hne.
    apply lit_matcher_None.
    destruct Hm as [(k & Hk & Hc) | [_ Hm]].
    + (* a shortcode for another key *)
      destruct m1 as [|c1 m1].
      * simpl in Hk. subst m2. unfold shortcode. simpl.
        rewrite ?Ascii.eqb_refl. simpl. rewrite <- app_assoc. simpl.
        rewrite HasPrefix_closing by by apply entry_ok_colon.
        apply orb_false_intro.
        -- apply HasPrefix_false. intros [x E].
           apply Hc. rewrite E. set_solver.
        -- apply bool_decide_eq_false. intros ->. by apply Heq.
      * unfold shortcode in Hk. simpl in Hk. injection Hk as -> Hk.
        destruct m2 as [|c2 m2]; [done|].
        destruct (decide (c2 = colon)) as [->|Hc2].
        -- (* the closing colon *)
           assert (m2 = []) as ->.
           { destruct m2 as [|c3 m2] using rev_ind; [done|].
             rewrite app_comm_cons, app_assoc in Hk.
             apply app_inj_tail in Hk as [Hk _].
             exfalso. apply Hc. rewrite <- Hk. set_solver. }
           unfold shortcode. simpl. by rewrite ?Ascii.eqb_refl.
        -- unfold shortcode. simpl.
           destruct (Ascii.eqb_spec colon c2); [congruence|done].
    + (* a glyph *)
      destruct m2 as [|c2 m2]; [done|]. unfold shortcode. simpl.
      destruct (Ascii.eqb_spec colon c2) as [<-|]; [|done].
      rewrite forallb_forall in Hm.
      specialize (Hm colon). rewrite <- list_elem_of_In in Hm.
      assert (colon ∈ m1 ++ colon :: m2) as Hin by set_solver.
      by apply Hm in Hin.
Qed.

(** ** The whole loop of [fixEmoji] *)

Lemma existsb_false_forall {A : Type} (f : A → bool) (l : list A) :
  existsb f l = false → ∀ x, x ∈ l → f x = false.
Proof.
  induction l as [|a l IH]; simpl; intros H x Hx.
  - by apply elem_of_nil in Hx.
  - apply orb_false_elim in H as [Ha Hl].
    apply elem_of_cons in Hx as [-> | Hx]; [done|by apply IH].
Qed.

Lemma HasPrefix_nil_false p : p ≠ [] → HasPrefix [] p = false.
Proof. by destruct p. Qed.

Lemma emoji_unit_next kv m :
  entry_ok kv = true → emoji_unit m →
  emoji_unit (if bool_decide (m = shortcode kv.1) then kv.2 else m).
Proof.
  intros Hok Hm. case_bool_decide; [|done]. right.
  destruct (entry_ok_nonempty kv Hok) as (v & new & E). split.
  - by rewrite E.
  - apply forallb_forall. intros c Hc%list_elem_of_In.
    by rewrite (entry_ok_glyph kv c Hok Hc).
Qed.

Lemma emoji_step_unit kv m :
  entry_ok kv = true → emoji_unit m →
  emoji_step m kv = if bool_decide (m = shortcode kv.1) then kv.2 else m.
Proof.
  intros Hok Hm. unfold emoji_step.
  rewrite <- (app_nil_r m) at 1. rewrite emoji_unit_step; try done.
  - by rewrite app_nil_r.
  - apply HasPrefix_nil_false. by destruct kv.1.
Qed.

Lemma emoji_step_split kv a m b :
  entry_ok kv = true →
  HasSuffix a (colon :: kv.1) = false →
  HasPrefix b (kv.1 ++ [colon]) = false →
  emoji_unit m →
  emoji_step (a ++ m ++ b) kv
  = emoji_step a kv ++ emoji_step m kv ++ emoji_step b kv.
Proof.
  intros Hok Ha Hb Hm. rewrite (emoji_step_unit kv m) by done.
  unfold emoji_step, ReplaceAll.
  destruct (emoji_unit_head m Hm) as (m0 & z & E & Hm0).
  rewrite scan_app.
  - f_equal. by apply emoji_unit_step.
  - rewrite E. simpl. by apply emoji_splits_at.
Qed.

Lemma emoji_step_suffix_back kv kv' a :
  entry_ok kv = true → entry_ok kv' = true →
  HasSuffix a (colon :: kv'.1) = false →
  HasSuffix (emoji_step a kv) (colon :: kv'.1) = false.
Proof.
  intros Hok Hok' Ha. apply HasSuffix_false. intros H.
  apply HasSuffix_false in Ha. apply Ha.
  destruct (entry_ok_nonempty kv Hok) as (v & new & E).
  unfold emoji_step in H. rewrite E in H.
  apply ReplaceAll_suffix_back in H; [done|].
  intros c Hc Hin. rewrite <- E in Hc.
  apply (glyph_apart kv kv' c Hok Hok' Hc).
  unfold shortcode. rewrite app_comm_cons. set_solver.
Qed.

Lemma emoji_step_prefix_back kv q b :
  entry_ok kv = true → forallb is_ascii q = true →
  HasPrefix b q = false → HasPrefix (emoji_step b kv) q = false.
Proof.
  intros Hok Hq Hb.
  destruct (HasPrefix (emoji_step b kv) q) eqn:H; [|done].
  destruct (entry_ok_nonempty kv Hok) as (v & new & E).
  unfold emoji_step in H. rewrite E in H.
  apply ReplaceAll_prefix_back in H; [congruence|].
  intros Hin. rewrite forallb_forall in Hq.
  apply list_elem_of_In, Hq in Hin.
  rewrite (entry_ok_glyph kv v Hok) in Hin; [done|]. rewrite E. set_solver.
Qed.

Lemma entry_ok_close_ascii kv :
  entry_ok kv = true → forallb is_ascii (kv.1 ++ [colon]) = true.
Proof.
  intros Hok. apply forallb_forall. intros c Hc%list_elem_of_In.
  apply (shortcode_ascii kv c Hok). unfold shortcode. set_solver.
Qed.

Lemma fold_split dict :
  Forall (λ kv, entry_ok kv = true) dict →
  ∀ a m b,
    (∀ kv, kv ∈ dict → HasSuffix a (colon :: kv.1) = false) →
    (∀ kv, kv ∈ dict → HasPrefix b (kv.1 ++ [colon]) = false) →
    emoji_unit m →
    foldl emoji_step (a ++ m ++ b) dict
    = foldl emoji_step a dict ++ foldl emoji_step m dict
      ++ foldl emoji_step b dict.
Proof.
  induction dict as [|kv dict IH]; intros Hok a m b Ha Hb Hm; [done|].
  apply Forall_cons in Hok as [Hkv Hok]. simpl.
  rewrite emoji_step_split; [|done|apply Ha; set_solver|apply Hb; set_solver|done].
  apply IH; [done|..].
  - intros kv' Hin. apply emoji_step_suffix_back; [done|..].
    + by eapply Forall_forall in Hok.
    + apply Ha. set_solver.
  - intros kv' Hin. apply emoji_step_prefix_back; [done|..].
    + apply entry_ok_close_ascii. by eapply Forall_forall in Hok.
    + apply Hb. set_solver.
  - rewrite emoji_step_unit by done. by apply emoji_unit_next.
Qed.

Lemma fold_glyph dict g :
  Forall (λ kv, entry_ok kv = true) dict →
  g ≠ [] → forallb (λ c, negb (is_ascii c)) g = true →
  foldl emoji_step g dict = g.
Proof.
  intros Hok Hne Hg. induction dict as [|kv dict IH]; [done|].
  apply Forall_cons in Hok as [Hkv Hok]. simpl.
  rewrite emoji_step_unit; [|done|by right].
  rewrite bool_decide_eq_false_2; [by apply IH|].
  intros ->. simpl in Hg. done.
Qed.

Lemma entry_ok_is_glyph kv :
  entry_ok kv = true →
  kv.2 ≠ [] ∧ forallb (λ c, negb (is_ascii c)) kv.2 = true.
Proof.
  intros Hok. destruct (entry_ok_nonempty kv Hok) as (v & new & E). split.
  - by rewrite E.
  - apply forallb_forall. intros c Hc%list_elem_of_In.
    by rewrite (entry_ok_glyph kv c Hok Hc).
Qed.

Lemma fold_shortcode dict k :
  Forall (λ kv, entry_ok kv = true) dict → colon ∉ k →
  foldl emoji_step (shortcode k) dict
  = default (shortcode k) (emoji_map dict !! k).
Proof.
  intros Hok Hk. induction dict as [|[k' v'] dict IH]; [done|].
  apply Forall_cons in Hok as [Hkv Hok]. cbn [foldl].
  rewrite emoji_step_unit; [|done|left; by exists k]. cbn [fst snd].
  unfold emoji_map. rewrite list_to_map_cons. case_bool_decide as E.
  - apply shortcode_inj in E as ->. rewrite lookup_insert_eq. cbn [default].
    destruct (entry_ok_is_glyph (k', v') Hkv) as [Hne Hg].
    by apply fold_glyph.
  - rewrite lookup_insert_ne by congruence. by apply IH.
Qed.

Lemma emojiDict_ok : Forall (λ kv, entry_ok kv = true) emojiDict.
Proof.
  apply Forall_forall. intros kv Hin%list_elem_of_In. revert kv Hin.
  apply forallb_forall. by vm_compute.
Qed.

Lemma emojiDict_keys : NoDup emojiDict.*1.
Proof. apply (bool_decide_unpack _). by vm_compute. Qed.

Lemma order_ok order :
  iteration_order order → Forall (λ kv, entry_ok kv = true) order.
Proof. intros H. unfold iteration_order in H. rewrite H. apply emojiDict_ok. Qed.

Lemma order_map order :
  iteration_order order → emoji_map order = emoji_map emojiDict.
Proof.
  intros H. unfold emoji_map. apply list_to_map_proper; [|done].
  unfold iteration_order in H. rewrite H. apply emojiDict_keys.
Qed.

(** C8 (as amended): a colon-delimited word that shares neither colon with
    a shortcode of the dictionary is replaced by its glyph when the word is a
    key of the dictionary and left as it is otherwise, in every iteration
    order, and the text on either side is rewritten on its own. *)
Theorem emoji_substitution (order : list (list ascii * list ascii))
    (a k b : list ascii) :
  iteration_order order → colon ∉ k →
  ends_with_open a = false → starts_with_close b = false →
  fixEmoji_in order (a ++ shortcode k ++ b)
  = fixEmoji_in order a ++ default (shortcode k) (emoji_glyph k)
    ++ fixEmoji_in order b.
Proof.
  intros Hord Hk Ha Hb. unfold fixEmoji_in, emoji_glyph.
  rewrite <- (order_map order Hord).
  rewrite <- (fold_shortcode order k) by (done || by apply order_ok).
  apply fold_split.
  - by apply order_ok.
  - intros kv Hin. unfold iteration_order in Hord. rewrite Hord in Hin.
    by apply (existsb_false_forall _ _ Ha kv).
  - intros kv Hin. unfold iteration_order in Hord. rewrite Hord in Hin.
    by apply (existsb_false_forall _ _ Hb kv).
  - left. by exists k.
Qed.

(** ** Iteration orders *)

Lemma fold_copy dict c t :
  Forall (λ kv, entry_ok kv = true) dict →
  (∀ kv, kv ∈ dict → HasPrefix (c :: t) (shortcode kv.1) = false) →
  foldl emoji_step (c :: t) dict = c :: foldl emoji_step t dict.
Proof.
  revert t. induction dict as [|kv dict IH]; intros t Hok H; [done|].
  apply Forall_cons in Hok as [Hkv Hok]. cbn [foldl].
  unfold emoji_step at 2. rewrite ReplaceAll_copy by (apply H; set_solver).
  fold (emoji_step t kv). apply IH; [done|].
  intros kv' Hin. specialize (H kv' ltac:(set_solver)).
  unfold shortcode in *. simpl in *.
  destruct (Ascii.eqb colon c); [|done]. simpl in *.
  apply emoji_step_prefix_back; [done| |done].
  apply entry_ok_close_ascii. by eapply Forall_forall in Hok.
Qed.

Lemma fold_nil dict : foldl emoji_step [] dict = [].
Proof. by induction dict. Qed.

Lemma no_shared_colon_tail c t :
  no_shared_colon (c :: t) = true → no_shared_colon t = true.
Proof. simpl. by intros [_ ?]%andb_prop. Qed.

Lemma no_shared_colon_drop n s :
  no_shared_colon s = true → no_shared_colon (drop n s) = true.
Proof.
  revert s. induction n as [|n IH]; intros [|c t] H; try done.
  simpl. by apply IH, (no_shared_colon_tail c).
Qed.

Lemma shortcode_length k : length (shortcode k) = length k + 2.
Proof. unfold shortcode. simpl. rewrite length_app. simpl. lia. Qed.

(** On a text in which no colon is shared, the loop of [fixEmoji] does, in
    any order, what one walk that replaces every shortcode does. *)
Lemma order_elem order kv :
  iteration_order order → kv ∈ order ↔ kv ∈ emojiDict.
Proof. intros H. unfold iteration_order in H. by rewrite H. Qed.

Lemma fold_shortcode_at order kv b :
  iteration_order order → kv ∈ emojiDict →
  starts_with_close b = false →
  foldl emoji_step (shortcode kv.1 ++ b) order = kv.2 ++ foldl emoji_step b order.
Proof.
  intros Hord Hin Hb.
  pose proof (order_ok order Hord) as Hok.
  assert (entry_ok kv = true) as Hkv.
  { pose proof emojiDict_ok as H. rewrite Forall_forall in H. by apply H. }
  change (shortcode kv.1 ++ b) with ([] ++ shortcode kv.1 ++ b).
  rewrite (fold_split order Hok [] (shortcode kv.1) b).
  - rewrite fold_nil. cbn [app]. f_equal.
    rewrite fold_shortcode by (done || by apply entry_ok_colon).
    rewrite (order_map order Hord). unfold emoji_map.
    assert (list_to_map emojiDict !! kv.1 = Some kv.2) as ->; [|done].
    apply elem_of_list_to_map; [apply emojiDict_keys|]. by destruct kv.
  - intros kv' _. apply HasSuffix_false. apply suffix_cons_nil_inv.
  - intros kv' Hin'. apply (order_elem order kv' Hord) in Hin'.
    by apply (existsb_false_forall _ _ Hb kv').
  - left. exists kv.1. split; [done|by apply entry_ok_colon].
Qed.

(** On a text in which no colon is shared, the loop of [fixEmoji] does, in
    any order, what one walk that replaces every shortcode does. *)
Lemma fixEmoji_in_one_walk order s :
  iteration_order order → no_shared_colon s = true →
  fixEmoji_in order s = replace_shortcodes s.
Proof.
  intros Hord. unfold fixEmoji_in, replace_shortcodes.
  remember (length s) as n eqn:Hn. revert s Hn.
  induction n as [n IH] using lt_wf_ind. intros s Hn Hs.
  destruct s as [|c t]; [by rewrite fold_nil|].
  pose proof Hs as Hs'. simpl in Hs'. apply andb_prop in Hs' as [Hhead Htail].
  destruct (shortcode_at (c :: t)) as [kv|] eqn:Hat.
  - assert (emoji_matcher (c :: t)
            = Some (kv.2, S (length (kv.1 ++ [colon])))) as Hm.
    { unfold emoji_matcher. by rewrite Hat. }
    apply find_some in Hat as [Hin Hp]. apply list_elem_of_In in Hin.
    apply HasPrefix_spec in Hp as [b Hb].
    assert (drop (length kv.1 + 2) (c :: t) = b) as Hdrop.
    { rewrite Hb, <- shortcode_length. apply drop_app_length. }
    rewrite Hdrop in Hhead. apply negb_true_iff in Hhead.
    assert (no_shared_colon b = true) as Hb'.
    { rewrite <- Hdrop. by apply no_shared_colon_drop. }
    rewrite (scan_match _ _ _ _ Hm).
    + replace (S (length (kv.1 ++ [colon]))) with (length kv.1 + 2)
        by (rewrite length_app; simpl; lia).
      rewrite Hdrop. rewrite Hb at 1.
      rewrite fold_shortcode_at by done. f_equal.
      apply (IH (length b)); [|done|done].
      rewrite Hn, Hb, length_app, shortcode_length. lia.
    + rewrite Hb, (length_app (shortcode kv.1)), shortcode_length, length_app.
      simpl. lia.
  - assert (emoji_matcher (c :: t) = None) as Hm.
    { unfold emoji_matcher. by rewrite Hat. }
    rewrite scan_copy by done. rewrite fold_copy.
    + f_equal. apply (IH (length t)); [simpl in Hn; lia|done|done].
    + by apply order_ok.
    + intros kv Hin. apply (order_elem order kv Hord) in Hin.
      apply list_elem_of_In in Hin.
      by apply (find_none _ _ Hat kv).
Qed.

(** C9 (as amended): on a text in which no colon closes one shortcode of
    the dictionary and opens another, [fixEmoji] gives the same result in
    every iteration order of the map. *)
Theorem fixEmoji_order_independent
    (order1 order2 : list (list ascii * list ascii)) (s : list ascii) :
  iteration_order order1 → iteration_order order2 →
  no_shared_colon s = true →
  fixEmoji_in order1 s = fixEmoji_in order2 s.
Proof.
  intros H1 H2 Hs. by rewrite !fixEmoji_in_one_walk.
Qed.

(** ** The emoji pass at given inputs *)

(** C8, as stated, fails: of two shortcodes that share a colon only one is
    replaced, and a word that is no key loses its closing colon to the
    shortcode that follows it. *)
Lemma emoji_substitution_shared_colon :
  contains (shortcode (bytes "-1")) (bytes ":+1:-1:") ∧
  fixEmoji_in emojiDict (bytes ":+1:-1:") = bytes "👍-1:" ∧
  fixEmoji_in emojiDict (bytes ":+1:+1:") = bytes "👍+1:" ∧
  fixEmoji_in emojiDict (bytes ":foo:+1:") = bytes ":foo👍".
Proof.
  split; [by apply is_contained; vm_compute|].
  split; [by vm_compute|]. split; by vm_compute.
Qed.

Lemma emoji_substitution_witness :
  fixEmoji_in emojiDict (bytes "ok " ++ shortcode (bytes "bulb") ++ bytes " done")
  = fixEmoji_in emojiDict (bytes "ok ")
    ++ default (shortcode (bytes "bulb")) (emoji_glyph (bytes "bulb"))
    ++ fixEmoji_in emojiDict (bytes " done").
Proof.
  apply (emoji_substitution emojiDict (bytes "ok ") (bytes "bulb") (bytes " done")).
  - exact (Permutation_refl emojiDict).
  - apply existsb_eqb_false. reflexivity.
  - reflexivity.
  - reflexivity.
Defined.

(** C9, as stated, fails: two iteration orders of the map give different
    results on a text in which two shortcodes share a colon. *)
Lemma fixEmoji_depends_on_order :
  iteration_order emojiDict ∧ iteration_order (reverse emojiDict) ∧
  fixEmoji_in emojiDict (bytes ":+1:-1:") = bytes "👍-1:" ∧
  fixEmoji_in (reverse emojiDict) (bytes ":+1:-1:") = bytes ":+1👎" ∧
  fixEmoji_in emojiDict (bytes ":+1:-1:")
  ≠ fixEmoji_in (reverse emojiDict) (bytes ":+1:-1:").
Proof.
  split; [exact (Permutation_refl emojiDict)|].
  split; [apply reverse_Permutation|].
  split; [by vm_compute|]. split; [by vm_compute|].
  intros E. vm_compute in E. discriminate E.
Qed.

Lemma fixEmoji_order_independent_witness :
  fixEmoji_in emojiDict (bytes ":+1: and :bulb:")
  = fixEmoji_in (reverse emojiDict) (bytes ":+1: and :bulb:").
Proof.
  apply (fixEmoji_order_independent emojiDict (reverse emojiDict)
           (bytes ":+1: and :bulb:")).
  - exact (Permutation_refl emojiDict).
  - apply reverse_Permutation.
  - reflexivity.
Defined.

(** ** The name index *)

Lemma LastIndex_from_absent i s c :
  c ∉ s → LastIndex_from i s [c] = (-1)%Z.
Proof.
  revert i. induction s as [|b s IH]; intros i Hc; [done|].
  apply not_elem_of_cons in Hc as [Hcb Hc]. simpl.
  rewrite IH by done. simpl.
  destruct (Ascii.eqb_spec c b); [congruence|done].
Qed.

Lemma LastIndex_from_last i a c b :
  (0 ≤ i)%Z → c ∉ b →
  LastIndex_from i (a ++ c :: b) [c] = (i + Z.of_nat (length a))%Z.
Proof.
  revert i. induction a as [|x a IH]; intros i Hi Hc.
  - simpl. rewrite LastIndex_from_absent by done. simpl.
    rewrite Ascii.eqb_refl. simpl. lia.
  - cbn [app LastIndex_from]. rewrite IH by (done || lia).
    destruct (0 <=? i + 1 + Z.of_nat (length a))%Z eqn:E.
    + simpl. lia.
    + apply Z.leb_gt in E. lia.
Qed.

Lemma link_name_after_last id rest :
  "_"%char ∉ rest → link_name (id ++ bytes "_" ++ rest) = rest.
Proof.
  intros H. unfold link_name, LastIndex, slice_from. simpl.
  rewrite LastIndex_from_last by done.
  replace (Z.to_nat (0 + Z.of_nat (length id) + 1)) with (length id + 1) by lia.
  rewrite drop_app_add. done.
Qed.

Lemma link_name_whole name : "_"%char ∉ name → link_name name = name.
Proof.
  intros H. unfold link_name, LastIndex, slice_from. simpl.
  by rewrite LastIndex_from_absent.
Qed.

Lemma link_name_suffix name : link_name name `suffix_of` name.
Proof. apply suffix_drop. Qed.

Lemma index_entries_app m l1 l2 :
  index_entries m (l1 ++ l2) = index_entries (index_entries m l1) l2.
Proof. apply foldl_app. Qed.

Lemma index_entries_other m entries k :
  (∀ e, e ∈ entries → IsDir e = false → link_name (Name e) ≠ k) →
  index_entries m entries !! k = m !! k.
Proof.
  revert m. induction entries as [|e entries IH]; intros m H; [done|].
  unfold index_entries. simpl. fold (index_entries (index_entry m e) entries).
  rewrite IH by (intros e' ? ?; apply H; [set_solver|done]).
  unfold index_entry. destruct (IsDir e) eqn:Hd; [done|].
  apply lookup_insert_ne. apply H; [set_solver|done].
Qed.

Lemma index_entries_last m entries e :
  last_with_link entries e →
  index_entries m entries !! link_name (Name e) = Some (Name e).
Proof.
  intros (pre & post & -> & Hd & Hpost).
  rewrite index_entries_app. unfold index_entries at 1. simpl.
  fold (index_entries (index_entry (index_entries m pre) e) post).
  rewrite index_entries_other by done.
  unfold index_entry. rewrite Hd. apply lookup_insert_eq.
Qed.

Lemma index_entries_maps m entries e :
  last_with_link entries e → maps_entry (index_entries m entries) e.
Proof.
  intros H. pose proof (index_entries_last m entries e H) as Hl. split.
  - intros id rest E Hrest. rewrite E in Hl |- *.
    by rewrite link_name_after_last in Hl.
  - intros Hn. by rewrite link_name_whole in Hl.
Qed.

Lemma index_inv_mono entries entries' index :
  (∀ e, e ∈ entries → e ∈ entries') →
  index_inv entries index → index_inv entries' index.
Proof.
  intros Hsub H k v Hkv. destruct (H k v Hkv) as (? & ? & e & ? & ? & ?).
  split; [done|]. split; [done|]. exists e. auto.
Qed.

Lemma index_entries_inv entries :
  index_inv entries (index_entries ∅ entries).
Proof.
  induction entries as [|e entries IH] using rev_ind.
  - intros k v H. unfold index_entries in H. simpl in H.
    by rewrite lookup_empty in H.
  - rewrite index_entries_app. unfold index_entries at 1. simpl.
    apply (index_inv_mono entries (entries ++ [e])) in IH; [|set_solver].
    unfold index_entry. destruct (IsDir e) eqn:Hd; [done|].
    intros k v H. rewrite lookup_insert in H. case_decide as E.
    + injection H as <-. subst k. split; [apply link_name_suffix|].
      split; [done|]. exists e. set_solver.
    + by apply IH.
Qed.

(** ** Startup and the handlers *)
(** Paths in canonical form, and paths the mux redirects. *)
Lemma canonical_path_examples :
  canonical_path (bytes "/") = true ∧
  canonical_path (bytes "/1.md") = true ∧
  canonical_path (bytes "/a/b.png") = true ∧
  canonical_path (bytes "/a/") = true ∧
  canonical_path (bytes "/..a") = true ∧
  canonical_path (bytes "") = false ∧
  canonical_path (bytes "*") = false ∧
  canonical_path (bytes "1.md") = false ∧
  canonical_path (bytes "//1.md") = false ∧
  canonical_path (bytes "/a//") = false ∧
  canonical_path (bytes "/.") = false ∧
  canonical_path (bytes "/..") = false ∧
  canonical_path (bytes "/a/./b") = false ∧
  canonical_path (bytes "/a/../b") = false.
Proof. repeat split; reflexivity. Qed.

(** A name without a slash that is neither [.] nor [..] gives a path in
    canonical form. *)
Lemma canonical_path_name name :
  "/"%char ∉ name → name ≠ bytes "." → name ≠ bytes ".." →
  canonical_path (bytes "/" ++ name) = true.
Proof.
  intros Hslash Hdot Hdots.
  assert (∀ q t, "/"%char ∉ t → Contains t ("/"%char :: q) = false) as Hno.
  { intros q t Ht. induction t as [|c t IH]; [done|]. simpl.
    destruct (Ascii.eqb_spec "/"%char c) as [<-|_]; [set_solver|].
    apply IH. set_solver. }
  unfold canonical_path. simpl.
  rewrite (Hno _ name Hslash).
  destruct name as [|c name]; [done|].
  assert (c ≠ "/"%char) as Hc by set_solver.
  rewrite <- (Ascii.eqb_neq) in Hc. rewrite Ascii.eqb_sym in Hc.
  simpl. rewrite Hc. simpl.
  assert (∀ q k, "/"%char ∉ k →
    Contains (k ++ bytes "/") ("/"%char :: "."%char :: q) = false) as Hend.
  { intros q k Hk. induction k as [|d k IH]; [done|]. simpl.
    destruct (Ascii.eqb_spec "/"%char d) as [<-|_]; [set_solver|].
    apply IH. set_solver. }
  assert ("/"%char ∉ name) as Hname by set_solver.
  rewrite !Hend by done. rewrite !orb_false_r.
  destruct (Ascii.eqb_spec "."%char c) as [<-|_]; [|done]. simpl.
  destruct name as [|d name]; [done|]. simpl.
  assert (Ascii.eqb "/"%char d = false) as Hd.
  { apply Ascii.eqb_neq. set_solver. }
  rewrite Hd. simpl.
  destruct (Ascii.eqb_spec "."%char d) as [<-|_]; [|done]. simpl.
  destruct name as [|e name]; [done|]. simpl.
  assert (Ascii.eqb "/"%char e = false) as He.
  { apply Ascii.eqb_neq. set_solver. }
  by rewrite He.
Qed.

Section ServerFacts.
Variable path_Join : list ascii → list ascii → list ascii.
Variable ToLower : list ascii → list ascii.
Variable DetectContentType : list ascii → list ascii.
Variable markdown_ToHTML : list ascii → list ascii.
Variable indexTemplate : list document → list ascii.
Variable documentTemplate : list ascii → list ascii → list ascii.
Variable docCSS : list ascii.

Lemma main_result fl fs g :
  main path_Join fl fs initial = (Ok tt, g) →
  ∃ mds imgs files,
    ReadDir fs (flag_m fl) = Ok mds ∧
    ReadDir fs (flag_i fl) = Ok imgs ∧
    ReadDir fs (flag_f fl) = Ok files ∧
    g = {| basicUser := flag_bu fl; basicPassword := flag_bp fl;
           mdDir := flag_m fl; imgDir := flag_i fl; fileDir := flag_f fl;
           mdEntries := foldl (catalog_entry path_Join fs (flag_m fl)) [] mds;
           imgLinkToNameMap := index_entries ∅ imgs;
           fileLinkToNameMap := index_entries ∅ files |}.
Proof.
  unfold main, bind, modify, gets, ret. simpl.
  destruct (ReadDir fs (flag_m fl)) as [mds|] eqn:Hm; simpl; [|done].
  destruct (ReadDir fs (flag_i fl)) as [imgs|] eqn:Hi; simpl; [|done].
  destruct (ReadDir fs (flag_f fl)) as [files|] eqn:Hf; simpl; [|done].
  intros [= <-]. by exists mds, imgs, files.
Qed.

Lemma handleIndex_state g : (handleIndex indexTemplate g).2 = g.
Proof. done. Qed.

Lemma handleMarkdown_state fs order fileName g :
  (handleMarkdown path_Join markdown_ToHTML documentTemplate fs order
     fileName g).2 = g.
Proof.
  unfold handleMarkdown, bind, gets, ret. simpl.
  repeat case_match; done.
Qed.

Lemma handleImage_state fs fileName g :
  (handleImage path_Join DetectContentType fs fileName g).2 = g.
Proof.
  unfold handleImage, bind, gets, ret. simpl. repeat case_match; done.
Qed.

Lemma handleFile_state fs fileName g :
  (handleFile path_Join DetectContentType fs fileName g).2 = g.
Proof.
  unfold handleFile, bind, gets, ret. simpl. repeat case_match; done.
Qed.

Lemma catchAll_state fs order r g :
  (catchAll path_Join ToLower DetectContentType markdown_ToHTML indexTemplate
     documentTemplate fs order r g).2 = g.
Proof.
  unfold catchAll, bind, gets, ret.
  repeat case_match; simplify_eq/=;
    auto using handleIndex_state, handleMarkdown_state, handleImage_state,
      handleFile_state.
Qed.

Lemma serve_state fs order r g :
  (serve path_Join ToLower DetectContentType markdown_ToHTML indexTemplate
     documentTemplate docCSS fs order r g).2 = g.
Proof.
  unfold serve, ret. repeat case_match; try done. apply catchAll_state.
Qed.

(** C1 (as amended): after startup each index maps, for every file of its
    directory that no later file of the listing shadows, what follows the
    last underscore of the name (the whole name when there is none) to the
    name. *)
Theorem name_index_construction fl fs g imgs files :
  main path_Join fl fs initial = (Ok tt, g) →
  ReadDir fs (flag_i fl) = Ok imgs →
  ReadDir fs (flag_f fl) = Ok files →
  (∀ e, last_with_link imgs e → maps_entry (imgLinkToNameMap g) e) ∧
  (∀ e, last_with_link files e → maps_entry (fileLinkToNameMap g) e).
Proof.
  intros (mds & imgs' & files' & _ & Hi & Hf & ->)%main_result Himgs Hfiles.
  simpl. rewrite Hi in Himgs. rewrite Hf in Hfiles.
  injection Himgs as ->. injection Hfiles as ->.
  split; intros e He; by apply index_entries_maps.
Qed.

(** C10: in every state the process reaches, each key of the two indices
    ends its value and is the link name of it, and each value is the name of
    a file of the directory as it was listed at startup. *)
Theorem name_index_invariant fl fs0 g imgs files :
  reachable path_Join ToLower DetectContentType markdown_ToHTML indexTemplate
    documentTemplate docCSS fl fs0 g →
  ReadDir fs0 (flag_i fl) = Ok imgs →
  ReadDir fs0 (flag_f fl) = Ok files →
  index_inv imgs (imgLinkToNameMap g) ∧ index_inv files (fileLinkToNameMap g).
Proof.
  intros Hreach Himgs Hfiles. induction Hreach as [g Hmain|g fs order r _ IH].
  - apply main_result in Hmain as (mds & imgs' & files' & _ & Hi & Hf & ->).
    simpl. rewrite Hi in Himgs. rewrite Hf in Hfiles.
    injection Himgs as ->. injection Hfiles as ->.
    split; apply index_entries_inv.
  - by rewrite serve_state.
Qed.

(** C3 (as amended): with a user name configured, a GET request whose path
    is in canonical form, so that the mux passes it on to a handler, and is
    neither of the two paths that have a handler of their own, is answered
    401 with the challenge when it carries no credential or a wrong one. *)
Theorem credential_required fs order r g :
  Method r = bytes "GET" →
  canonical_path (URLPath r) = true →
  URLPath r ≠ bytes "/favicon.ico" → URLPath r ≠ bytes "/doc.css" →
  basicUser g ≠ [] →
  credential_ok (basicUser g) (basicPassword g) r = false →
  Status (serve path_Join ToLower DetectContentType markdown_ToHTML
            indexTemplate documentTemplate docCSS fs order r g).1
  = StatusUnauthorized ∧
  challenge ∈ Header (serve path_Join ToLower DetectContentType markdown_ToHTML
                        indexTemplate documentTemplate docCSS fs order r g).1.
Proof.
  intros Hget _ Hfav Hcss Huser Hcred. unfold serve.
  rewrite !bool_decide_eq_false_2 by done.
  unfold catchAll, bind, gets, ret. rewrite bool_decide_eq_true_2 by done.
  simpl. rewrite Hcred. destruct (basicUser g) as [|u us]; [done|]. simpl.
  split; [done|]. apply list_elem_of_here.
Qed.
End ServerFacts.

(** C1, as stated, fails: two files of the image directory with the same
    text after the last underscore; the index maps it to the later one. *)
Lemma name_index_later_file_wins :
  main example_join example_flags example_fs initial = (Ok tt, example_globals) ∧
  ReadDir example_fs (bytes "img")
  = Ok [ {| Name := bytes "1_a.png"; IsDir := false |};
         {| Name := bytes "2_a.png"; IsDir := false |};
         {| Name := bytes "3_old"; IsDir := true |};
         {| Name := bytes "logo.gif"; IsDir := false |} ] ∧
  imgLinkToNameMap example_globals !! bytes "a.png" = Some (bytes "2_a.png") ∧
  imgLinkToNameMap example_globals !! bytes "a.png" ≠ Some (bytes "1_a.png").
Proof.
  split; [by vm_compute|]. split; [by vm_compute|].
  split; [by vm_compute|]. intros E. vm_compute in E. discriminate E.
Qed.

Lemma name_index_construction_witness :
  (∀ e, last_with_link
          [ {| Name := bytes "1_a.png"; IsDir := false |};
            {| Name := bytes "2_a.png"; IsDir := false |};
            {| Name := bytes "3_old"; IsDir := true |};
            {| Name := bytes "logo.gif"; IsDir := false |} ] e →
        maps_entry (imgLinkToNameMap example_globals) e) ∧
  (∀ e, last_with_link
          [ {| Name := bytes "7_annual_report.pdf"; IsDir := false |} ] e →
        maps_entry (fileLinkToNameMap example_globals) e).
Proof.
  apply (name_index_construction example_join example_flags example_fs
           example_globals).
  - vm_compute. reflexivity.
  - reflexivity.
  - reflexivity.
Defined.

Lemma name_index_invariant_witness :
  index_inv
    [ {| Name := bytes "1_a.png"; IsDir := false |};
      {| Name := bytes "2_a.png"; IsDir := false |};
      {| Name := bytes "3_old"; IsDir := true |};
      {| Name := bytes "logo.gif"; IsDir := false |} ]
    (imgLinkToNameMap example_globals) ∧
  index_inv [ {| Name := bytes "7_annual_report.pdf"; IsDir := false |} ]
    (fileLinkToNameMap example_globals).
Proof.
  apply (name_index_invariant example_join (λ s, s)
           (λ _, bytes "application/octet-stream") (λ md, md)
           (λ docs, concat (Title <$> docs)) (λ title html, title ++ html)
           (bytes "body{}") example_flags example_fs example_globals).
  - apply reach_start. vm_compute. reflexivity.
  - reflexivity.
  - reflexivity.
Defined.

(** C3, as stated, fails: the stylesheet has a handler of its own, which
    asks for no credential; and a request that is no GET is answered 405
    before the credential is looked at. *)
Lemma stylesheet_needs_no_credential :
  basicUser example_globals = bytes "admin" ∧
  (example_serve example_fs
     {| Method := bytes "GET"; URLPath := bytes "/doc.css"; BasicAuth := None |}
     example_globals).1
  = {| Status := StatusOK;
       Header := [(bytes "Content-Type", bytes "text/css")];
       Body := bytes "body{}" |} ∧
  Status (example_serve example_fs
     {| Method := bytes "POST"; URLPath := bytes "/"; BasicAuth := None |}
     example_globals).1 = StatusMethodNotAllowed.
Proof. split; [by vm_compute|]. split; by vm_compute. Qed.

Lemma credential_required_witness :
  Status (example_serve example_fs
     {| Method := bytes "GET"; URLPath := bytes "/1.md";
        BasicAuth := Some (bytes "admin", bytes "guess") |}
     example_globals).1 = StatusUnauthorized ∧
  challenge ∈ Header (example_serve example_fs
     {| Method := bytes "GET"; URLPath := bytes "/1.md";
        BasicAuth := Some (bytes "admin", bytes "guess") |}
     example_globals).1.
Proof.
  unfold example_serve. apply credential_required.
  - reflexivity.
  - reflexivity.
  - intros E. discriminate E.
  - intros E. discriminate E.
  - intros E. vm_compute in E. discriminate E.
  - vm_compute. reflexivity.
Defined.

(** C4: the scanner stops with an error, [Close] succeeds, and the handler
    answers 200 with the part of the document that was read. *)
Lemma markdown_scan_error_is_served :
  Stat example_fs (bytes "md/1.md") = None ∧
  (ScanErr <$> match Open example_fs (bytes "md/1.md") with
               | Ok f => Some f
               | Err _ => None
               end)
  = Some (Some (bytes "bufio.Scanner: token too long")) ∧
  (example_serve example_fs
     {| Method := bytes "GET"; URLPath := bytes "/1.md";
        BasicAuth := Some (bytes "admin", bytes "secret") |}
     example_globals).1
  = {| Status := StatusOK; Header := [];
       Body := bytes "Title" ++ bytes "first line"
               ++ bytes (String "010"%char EmptyString) |}.
Proof. split; [by vm_compute|]. split; by vm_compute. Qed.

(** * Further properties *)

(** ** Link names *)

Lemma link_name_no_underscore name : "_"%char ∉ link_name name.
Proof.
  destruct (decide ("_"%char ∈ name)) as [Hin|Hnot].
  - apply list_elem_of_split_r in Hin as (a & b & -> & Hb).
    change (a ++ "_"%char :: b) with (a ++ bytes "_" ++ b).
    by rewrite (link_name_after_last a b Hb).
  - by rewrite link_name_whole.
Qed.

(** X1: a link name holds no underscore, ends the name it was taken from,
    and is its own link name. *)
Theorem link_name_is_final (name : list ascii) :
  ("_"%char ∉ link_name name) ∧
  (link_name name `suffix_of` name) ∧
  link_name (link_name name) = link_name name.
Proof.
  split; [apply link_name_no_underscore|]. split; [apply link_name_suffix|].
  apply link_name_whole, link_name_no_underscore.
Qed.

(** ** The states of the process *)
Section MoreServerFacts.
Variable path_Join : list ascii → list ascii → list ascii.
Variable ToLower : list ascii → list ascii.
Variable DetectContentType : list ascii → list ascii.
Variable markdown_ToHTML : list ascii → list ascii.
Variable indexTemplate : list document → list ascii.
Variable documentTemplate : list ascii → list ascii → list ascii.
Variable docCSS : list ascii.

(** Serving changes no package-level variable, so the process stays in the
    state [main] left. *)
Lemma reachable_is_startup fl fs0 g :
  reachable path_Join ToLower DetectContentType markdown_ToHTML indexTemplate
    documentTemplate docCSS fl fs0 g →
  main path_Join fl fs0 initial = (Ok tt, g).
Proof.
  induction 1 as [g Hmain|g fs order r _ IH]; [done|].
  by rewrite serve_state.
Qed.

Lemma catchAll_routes fs order r g :
  Method r = bytes "GET" → passes_auth g r = true →
  catchAll path_Join ToLower DetectContentType markdown_ToHTML indexTemplate
    documentTemplate fs order r g
  = let fileName := TrimPrefix (URLPath r) (bytes "/") in
    if length fileName =? 0 then handleIndex indexTemplate g
    else if is_markdown_name ToLower fileName then
      handleMarkdown path_Join markdown_ToHTML documentTemplate fs order
        fileName g
    else if is_image_name ToLower fileName then
      handleImage path_Join DetectContentType fs fileName g
    else handleFile path_Join DetectContentType fs fileName g.
Proof.
  intros Hget Hauth.
  unfold catchAll, bind, gets, ret, is_markdown_name, is_image_name.
  rewrite bool_decide_eq_true_2 by done. cbn [negb].
  assert ((0 <? length (basicUser g))
          && negb (credential_ok (basicUser g) (basicPassword g) r) = false)
    as ->.
  { unfold passes_auth in Hauth.
    destruct (0 <? length (basicUser g)); [|done].
    simpl in Hauth. by rewrite Hauth. }
  cbv zeta.
  repeat match goal with
         | |- context [if ?c then _ else _] => destruct c
         end; done.
Qed.

Lemma TrimPrefix_slash name : TrimPrefix (bytes "/" ++ name) (bytes "/") = name.
Proof. done. Qed.

Lemma serve_routes fs order r g name :
  Method r = bytes "GET" → passes_auth g r = true →
  URLPath r = bytes "/" ++ name →
  URLPath r ≠ bytes "/favicon.ico" → URLPath r ≠ bytes "/doc.css" →
  name ≠ [] →
  serve path_Join ToLower DetectContentType markdown_ToHTML indexTemplate
    documentTemplate docCSS fs order r g
  = if is_markdown_name ToLower name then
      handleMarkdown path_Join markdown_ToHTML documentTemplate fs order name g
    else if is_image_name ToLower name then
      handleImage path_Join DetectContentType fs name g
    else handleFile path_Join DetectContentType fs name g.
Proof.
  intros Hget Hauth Hpath Hfav Hcss Hne. unfold serve.
  rewrite !bool_decide_eq_false_2 by done.
  rewrite catchAll_routes by done. rewrite Hpath, TrimPrefix_slash. simpl.
  destruct name; done.
Qed.

(** X2: after startup, a GET request that passes the credential test and
    asks for the link name of an image file (one no later file of the listing
    shadows) is answered from that file: its bytes with the sniffed content
    type, or 500 with the read error. *)
Theorem image_is_served_by_link_name fl fs0 g imgs e fs order r :
  reachable path_Join ToLower DetectContentType markdown_ToHTML indexTemplate
    documentTemplate docCSS fl fs0 g →
  ReadDir fs0 (flag_i fl) = Ok imgs → last_with_link imgs e →
  Method r = bytes "GET" → passes_auth g r = true →
  URLPath r = bytes "/" ++ link_name (Name e) →
  URLPath r ≠ bytes "/favicon.ico" → URLPath r ≠ bytes "/doc.css" →
  is_markdown_name ToLower (link_name (Name e)) = false →
  is_image_name ToLower (link_name (Name e)) = true →
  link_name (Name e) ≠ [] →
  (serve path_Join ToLower DetectContentType markdown_ToHTML indexTemplate
     documentTemplate docCSS fs order r g).1
  = serve_file DetectContentType fs (path_Join (flag_i fl) (Name e)).
Proof.
  intros Hreach Himgs He Hget Hauth Hpath Hfav Hcss Hmd Himg Hne.
  apply reachable_is_startup in Hreach.
  apply main_result in Hreach as (mds & imgs' & files & _ & Hi & _ & ->).
  rewrite Hi in Himgs. injection Himgs as ->.
  rewrite (serve_routes fs order r _ (link_name (Name e)) Hget Hauth Hpath
             Hfav Hcss Hne).
  rewrite Hmd, Himg. unfold handleImage, bind, gets, ret. simpl.
  rewrite (index_entries_last ∅ imgs e He). unfold serve_file. simpl.
  destruct (ReadFile fs (path_Join (flag_i fl) (Name e))); reflexivity.
Qed.

(** X3: the same for an attachment: a name that is neither a Markdown name
    nor an image name is looked up in the index of the file directory, and
    the request is answered from the file it resolves to. *)
Theorem attachment_is_served_by_link_name fl fs0 g files e fs order r :
  reachable path_Join ToLower DetectContentType markdown_ToHTML indexTemplate
    documentTemplate docCSS fl fs0 g →
  ReadDir fs0 (flag_f fl) = Ok files → last_with_link files e →
  Method r = bytes "GET" → passes_auth g r = true →
  URLPath r = bytes "/" ++ link_name (Name e) →
  URLPath r ≠ bytes "/favicon.ico" → URLPath r ≠ bytes "/doc.css" →
  is_markdown_name ToLower (link_name (Name e)) = false →
  is_image_name ToLower (link_name (Name e)) = false →
  link_name (Name e) ≠ [] →
  (serve path_Join ToLower DetectContentType markdown_ToHTML indexTemplate
     documentTemplate docCSS fs order r g).1
  = serve_file DetectContentType fs (path_Join (flag_f fl) (Name e)).
Proof.
  intros Hreach Hfiles He Hget Hauth Hpath Hfav Hcss Hmd Himg Hne.
  apply reachable_is_startup in Hreach.
  apply main_result in Hreach as (mds & imgs & files' & _ & _ & Hf & ->).
  rewrite Hf in Hfiles. injection Hfiles as ->.
  rewrite (serve_routes fs order r _ (link_name (Name e)) Hget Hauth Hpath
             Hfav Hcss Hne).
  rewrite Hmd, Himg. unfold handleFile, bind, gets, ret. simpl.
  rewrite (index_entries_last ∅ files e He). unfold serve_file. simpl.
  destruct (ReadFile fs (path_Join (flag_f fl) (Name e))); reflexivity.
Qed.

Lemma index_entries_keys entries k :
  "_"%char ∈ k → index_entries ∅ entries !! k = None.
Proof.
  intros Hk. destruct (index_entries ∅ entries !! k) as [v|] eqn:E; [|done].
  destruct (index_entries_inv entries k v E) as (_ & -> & _).
  by apply link_name_no_underscore in Hk.
Qed.

(** X4: no key of the two indices holds an underscore, so a request for a
    name with an underscore in it, the name of a file on disk included, is
    answered 404 by the image handler and by the attachment handler. *)
Theorem name_with_underscore_is_not_found fl fs0 g fs fileName :
  reachable path_Join ToLower DetectContentType markdown_ToHTML indexTemplate
    documentTemplate docCSS fl fs0 g →
  "_"%char ∈ fileName →
  (handleImage path_Join DetectContentType fs fileName g).1 = http_NotFound ∧
  (handleFile path_Join DetectContentType fs fileName g).1 = http_NotFound.
Proof.
  intros Hreach Hk. apply reachable_is_startup in Hreach.
  apply main_result in Hreach as (mds & imgs & files & _ & _ & _ & ->).
  unfold handleImage, handleFile, bind, gets, ret. simpl.
  by rewrite !index_entries_keys.
Qed.

Lemma handlers_ignore_auth fs order fileName g :
  (handleIndex indexTemplate g).1 = (handleIndex indexTemplate (without_auth g)).1 ∧
  (handleMarkdown path_Join markdown_ToHTML documentTemplate fs order fileName
     g).1
  = (handleMarkdown path_Join markdown_ToHTML documentTemplate fs order
       fileName (without_auth g)).1 ∧
  (handleImage path_Join DetectContentType fs fileName g).1
  = (handleImage path_Join DetectContentType fs fileName (without_auth g)).1 ∧
  (handleFile path_Join DetectContentType fs fileName g).1
  = (handleFile path_Join DetectContentType fs fileName (without_auth g)).1.
Proof.
  unfold handleIndex, handleMarkdown, handleImage, handleFile, bind, gets, ret.
  simpl. repeat split; repeat case_match; simplify_eq/=; congruence.
Qed.

(** X5: a request that carries the configured user name and password is
    answered exactly as by the server without Basic authentication. *)
Theorem right_credential_is_transparent fs order r g :
  credential_ok (basicUser g) (basicPassword g) r = true →
  (serve path_Join ToLower DetectContentType markdown_ToHTML indexTemplate
     documentTemplate docCSS fs order r g).1
  = (serve path_Join ToLower DetectContentType markdown_ToHTML indexTemplate
       documentTemplate docCSS fs order r (without_auth g)).1.
Proof.
  intros Hcred. unfold serve, ret. repeat case_match; try done.
  destruct (decide (Method r = bytes "GET")) as [Hget|Hget].
  - rewrite !catchAll_routes; try done.
    + destruct (handlers_ignore_auth fs order
        (TrimPrefix (URLPath r) (bytes "/")) g) as (H1 & H2 & H3 & H4).
      cbv zeta. repeat case_match; done.
    + unfold passes_auth. rewrite Hcred. apply orb_true_r.
  - unfold catchAll. by rewrite !bool_decide_eq_false_2 by done.
Qed.

(** X6: a request whose path is in canonical form, which the mux passes on
    to a handler of the program, is answered with one of five status
    codes. *)
Theorem status_is_one_of_five fs order r g :
  canonical_path (URLPath r) = true →
  Status (serve path_Join ToLower DetectContentType markdown_ToHTML
            indexTemplate documentTemplate docCSS fs order r g).1
  ∈ [StatusOK; StatusUnauthorized; StatusNotFound; StatusMethodNotAllowed;
     StatusInternalServerError].
Proof.
  intros _.
  unfold serve, catchAll, handleIndex, handleMarkdown, handleImage,
    handleFile, bind, gets, ret.
  repeat case_match; simplify_eq/=; set_solver.
Qed.

(** X7: for a document that [os.Stat] finds, the Markdown handler answers
    500 exactly when the file cannot be opened or cannot be closed; an error
    of the scanner alone never gives 500. *)
Theorem markdown_internal_error_iff fs order fileName g :
  Stat fs (path_Join (mdDir g) fileName) = None →
  Status (handleMarkdown path_Join markdown_ToHTML documentTemplate fs order
            fileName g).1 = StatusInternalServerError
  ↔ match Open fs (path_Join (mdDir g) fileName) with
    | Err _ => True
    | Ok f => CloseErr f ≠ None
    end.
Proof.
  intros Hstat. unfold handleMarkdown, headAndContent, bind, gets, ret.
  simpl. rewrite Hstat.
  destruct (Open fs (path_Join (mdDir g) fileName)) as [f|e]; simpl.
  - destruct (CloseErr f); simpl; split; done.
  - done.
Qed.

Lemma catalog_fold fs dir acc entries :
  foldl (catalog_entry path_Join fs dir) acc entries
  = acc ++ foldl (catalog_entry path_Join fs dir) [] entries.
Proof.
  revert acc. induction entries as [|e entries IH]; intros acc.
  - by rewrite app_nil_r.
  - simpl. rewrite IH. rewrite (IH (catalog_entry path_Join fs dir [] e)).
    unfold catalog_entry. destruct (IsDir e); [done|].
    by rewrite app_assoc.
Qed.

(** What [head] gives [main] for a title, in terms of the file. *)
Lemma head_line_title fs filePath :
  match head_line fs filePath with Ok title => title | Err _ => [] end
  = match Open fs filePath with
    | Ok f => default [] (head (Lines f))
    | Err _ => []
    end.
Proof.
  unfold head_line. destruct (Open fs filePath) as [f|e]; [|done].
  destruct (Lines f) as [|l ls]; [|done]. by destruct (ScanErr f).
Qed.

Lemma catalog_spec fs dir entries :
  foldl (catalog_entry path_Join fs dir) [] entries
  = (λ e, {| FileName := Name e;
             Title := match Open fs (path_Join dir (Name e)) with
                      | Ok f => default [] (head (Lines f))
                      | Err _ => []
                      end |})
    <$> filter (λ e, IsDir e = false) entries.
Proof.
  induction entries as [|e entries IH]; [done|].
  simpl. rewrite catalog_fold, IH. unfold catalog_entry.
  rewrite filter_cons. destruct (IsDir e) eqn:Hd.
  - by rewrite decide_False by done.
  - rewrite decide_True by done. simpl. by rewrite head_line_title.
Qed.

(** X8: the catalog is the list of the files of the Markdown directory, in
    the order of the listing, directories left out; the title of each is the
    first line the scanner reads from the file, and empty when the file cannot
    be opened or gives no line. *)
Theorem catalog_lists_files fl fs g mds :
  main path_Join fl fs initial = (Ok tt, g) →
  ReadDir fs (flag_m fl) = Ok mds →
  mdEntries g
  = (λ e, {| FileName := Name e;
             Title := match Open fs (path_Join (flag_m fl) (Name e)) with
                      | Ok f => default [] (head (Lines f))
                      | Err _ => []
                      end |})
    <$> filter (λ e, IsDir e = false) mds.
Proof.
  intros (mds' & imgs & files & Hm & _ & _ & ->)%main_result Hmds.
  rewrite Hm in Hmds. injection Hmds as ->. simpl. apply catalog_spec.
Qed.

(** X9: startup succeeds exactly when the three directories can be
    listed. *)
Theorem startup_succeeds_iff fl fs :
  (main path_Join fl fs initial).1 = Ok tt
  ↔ (∃ mds, ReadDir fs (flag_m fl) = Ok mds) ∧
    (∃ imgs, ReadDir fs (flag_i fl) = Ok imgs) ∧
    (∃ files, ReadDir fs (flag_f fl) = Ok files).
Proof.
  unfold main, bind, modify, gets, ret. simpl.
  destruct (ReadDir fs (flag_m fl)) as [mds|] eqn:Hm; simpl.
  - destruct (ReadDir fs (flag_i fl)) as [imgs|] eqn:Hi; simpl.
    + destruct (ReadDir fs (flag_f fl)) as [files|] eqn:Hf; simpl.
      * split; [|done]. intros _. repeat split; by eexists.
      * split; [done|]. by intros (_ & _ & [? ?]).
    + split; [done|]. by intros (_ & [? ?] & _).
  - split; [done|]. by intros ([? ?] & _).
Qed.
End MoreServerFacts.

(** ** The installation, served *)

Lemma image_is_served_by_link_name_witness :
  (example_serve example_fs_readable
     {| Method := bytes "GET"; URLPath := bytes "/logo.gif";
        BasicAuth := Some (bytes "admin", bytes "secret") |}
     example_globals).1
  = serve_file (λ _, bytes "application/octet-stream") example_fs_readable
      (example_join (bytes "img") (bytes "logo.gif")).
Proof.
  unfold example_serve.
  apply (image_is_served_by_link_name example_join (λ s, s)
           (λ _, bytes "application/octet-stream") (λ md, md)
           (λ docs, concat (Title <$> docs)) (λ title html, title ++ html)
           (bytes "body{}") example_flags example_fs example_globals
           [ {| Name := bytes "1_a.png"; IsDir := false |};
             {| Name := bytes "2_a.png"; IsDir := false |};
             {| Name := bytes "3_old"; IsDir := true |};
             {| Name := bytes "logo.gif"; IsDir := false |} ]
           {| Name := bytes "logo.gif"; IsDir := false |}).
  - apply reach_start. vm_compute. reflexivity.
  - reflexivity.
  - exists [ {| Name := bytes "1_a.png"; IsDir := false |};
             {| Name := bytes "2_a.png"; IsDir := false |};
             {| Name := bytes "3_old"; IsDir := true |} ], [].
    split; [reflexivity|]. split; [reflexivity|].
    intros e' He'. by apply elem_of_nil in He'.
  - reflexivity.
  - vm_compute. reflexivity.
  - vm_compute. reflexivity.
  - intros E. discriminate E.
  - intros E. discriminate E.
  - vm_compute. reflexivity.
  - vm_compute. reflexivity.
  - intros E. vm_compute in E. discriminate E.
Defined.

Lemma attachment_is_served_by_link_name_witness :
  (example_serve example_fs_readable
     {| Method := bytes "GET"; URLPath := bytes "/report.pdf";
        BasicAuth := Some (bytes "admin", bytes "secret") |}
     example_globals).1
  = serve_file (λ _, bytes "application/octet-stream") example_fs_readable
      (example_join (bytes "file") (bytes "7_annual_report.pdf")).
Proof.
  unfold example_serve.
  apply (attachment_is_served_by_link_name example_join (λ s, s)
           (λ _, bytes "application/octet-stream") (λ md, md)
           (λ docs, concat (Title <$> docs)) (λ title html, title ++ html)
           (bytes "body{}") example_flags example_fs example_globals
           [ {| Name := bytes "7_annual_report.pdf"; IsDir := false |} ]
           {| Name := bytes "7_annual_report.pdf"; IsDir := false |}).
  - apply reach_start. vm_compute. reflexivity.
  - reflexivity.
  - exists [], []. split; [reflexivity|]. split; [reflexivity|].
    intros e' He'. by apply elem_of_nil in He'.
  - reflexivity.
  - vm_compute. reflexivity.
  - vm_compute. reflexivity.
  - intros E. discriminate E.
  - intros E. discriminate E.
  - vm_compute. reflexivity.
  - vm_compute. reflexivity.
  - intros E. vm_compute in E. discriminate E.
Defined.

Lemma name_with_underscore_is_not_found_witness :
  (handleImage example_join (λ _, bytes "application/octet-stream")
     example_fs_readable (bytes "1_a.png") example_globals).1 = http_NotFound ∧
  (handleFile example_join (λ _, bytes "application/octet-stream")
     example_fs_readable (bytes "1_a.png") example_globals).1 = http_NotFound.
Proof.
  apply (name_with_underscore_is_not_found example_join (λ s, s)
           (λ _, bytes "application/octet-stream") (λ md, md)
           (λ docs, concat (Title <$> docs)) (λ title html, title ++ html)
           (bytes "body{}") example_flags example_fs example_globals).
  - apply reach_start. vm_compute. reflexivity.
  - apply list_elem_of_further, list_elem_of_here.
Defined.

Lemma right_credential_is_transparent_witness :
  (example_serve example_fs_readable
     {| Method := bytes "GET"; URLPath := bytes "/1.md";
        BasicAuth := Some (bytes "admin", bytes "secret") |}
     example_globals).1
  = (example_serve example_fs_readable
       {| Method := bytes "GET"; URLPath := bytes "/1.md";
          BasicAuth := Some (bytes "admin", bytes "secret") |}
       (without_auth example_globals)).1.
Proof.
  unfold example_serve. apply right_credential_is_transparent.
  vm_compute. reflexivity.
Defined.

Lemma markdown_internal_error_iff_witness :
  Status (handleMarkdown example_join (λ md, md) (λ title html, title ++ html)
            example_fs emojiDict (bytes "1.md") example_globals).1
  = StatusInternalServerError
  ↔ match Open example_fs (example_join (mdDir example_globals) (bytes "1.md")) with
    | Err _ => True
    | Ok f => CloseErr f ≠ None
    end.
Proof.
  apply (markdown_internal_error_iff example_join (λ md, md)
           (λ title html, title ++ html) example_fs emojiDict (bytes "1.md")
           example_globals).
  reflexivity.
Defined.

Lemma status_is_one_of_five_witness :
  Status (example_serve example_fs
     {| Method := bytes "DELETE"; URLPath := bytes "/1.md"; BasicAuth := None |}
     example_globals).1
  ∈ [StatusOK; StatusUnauthorized; StatusNotFound; StatusMethodNotAllowed;
     StatusInternalServerError].
Proof.
  unfold example_serve. apply status_is_one_of_five. reflexivity.
Defined.

Lemma catalog_lists_files_witness :
  mdEntries example_globals
  = [ {| FileName := bytes "1.md"; Title := bytes "Title" |} ].
Proof.
  apply (catalog_lists_files example_join example_flags example_fs
           example_globals
           [ {| Name := bytes "1.md"; IsDir := false |} ]).
  - vm_compute. reflexivity.
  - reflexivity.
Defined.

(** ** The attachment rule and the icon rule *)

Lemma file_exec ident rest :
  ident ≠ [] → forallb is_file_id ident = true →
  (∀ c, head rest = Some c → is_file_id c = false) →
  ∃ t, exec fileLinkPattern (file_prefix ++ ident ++ rest)
       = (Some ident, rest) :: t.
Proof.
  intros Hne Hid Hrest.
  destruct (exec_plus_head is_file_id ident rest Hne Hid) as [t1 H1].
  { destruct rest as [|c ?]; [done|]. by apply Hrest. }
  apply exec_group_app in H1 as [t2 H2].
  apply (exec_cat_app (Lit file_prefix) _ (file_prefix ++ ident ++ rest)
    None _ [] _ _ _ (exec_lit_head _ _) H2).
Qed.

Lemma file_occurrence ident rest :
  ident ≠ [] → forallb is_file_id ident = true →
  (∀ c, head rest = Some c → is_file_id c = false) →
  rewrite_file (file_prefix ++ ident ++ rest) = ident ++ rewrite_file rest.
Proof.
  intros Hne Hid Hrest.
  destruct (file_exec ident rest) as [t Ht]; try done.
  pose proof (ReplaceAllString_head fileLinkPattern [Submatch 1]
    (file_prefix ++ ident) rest (Some ident) t) as H.
  rewrite <- !app_assoc in H. unfold rewrite_file. rewrite H.
  - unfold expand. cbn [fmap list_fmap expand_piece concat default].
    unfold Datatypes.id. by rewrite app_nil_r.
  - intros E. apply app_eq_nil in E as [E _]. discriminate E.
  - exact Ht.
Qed.

Lemma file_skip a z :
  starts_nowhere file_prefix a file_prefix = true →
  rewrite_file (a ++ file_prefix ++ z) = a ++ rewrite_file (file_prefix ++ z).
Proof.
  intros Ha. unfold rewrite_file, ReplaceAllString. apply scan_skip.
  intros a1 a2 E Hne2. unfold fileLinkPattern.
  apply (re_matcher_lit_fail file_prefix).
  rewrite app_assoc. rewrite HasPrefix_app_long.
  - by eapply starts_nowhere_spec.
  - rewrite length_app. lia.
Qed.

(** X10: the leftmost attachment URL (the prefix, then the longest run
    [ident] of letters, digits and dots) is replaced by [ident] alone; the
    text before it is kept and the text after it is rewritten in the same
    way. *)
Theorem attachment_url_rewrite (a ident rest : list ascii) :
  starts_nowhere file_prefix a file_prefix = true →
  ident ≠ [] → forallb is_file_id ident = true →
  (∀ c, head rest = Some c → is_file_id c = false) →
  rewrite_file (a ++ file_prefix ++ ident ++ rest)
  = a ++ ident ++ rewrite_file rest.
Proof.
  intros Ha Hne Hid Hrest.
  rewrite file_skip by done. by rewrite file_occurrence.
Qed.

Lemma attachment_url_rewrite_witness :
  rewrite_file (bytes "see [f](" ++ file_prefix ++ bytes "abc123.png"
                ++ bytes ") now")
  = bytes "see [f](" ++ bytes "abc123.png" ++ rewrite_file (bytes ") now").
Proof.
  apply (attachment_url_rewrite (bytes "see [f](") (bytes "abc123.png")
           (bytes ") now")).
  - reflexivity.
  - intros E. discriminate E.
  - reflexivity.
  - intros c E. injection E as <-. reflexivity.
Defined.

Lemma icon_exec alt name b :
  alt ≠ [] → forallb is_lower alt = true →
  name ≠ [] → forallb is_lower name = true →
  ∃ t, exec fileIconPattern
         (bytes "![" ++ alt ++ bytes "](/images/file_icons/" ++ name
          ++ bytes ".svg)" ++ b)
       = (None, b) :: t.
Proof.
  intros Ha1 Ha2 Hn1 Hn2.
  destruct (exec_plus_head is_lower name (bytes ".svg)" ++ b) Hn1 Hn2 eq_refl)
    as [t1 H1].
  destruct (exec_cat_app _ (Lit (bytes ".svg)")) _ _ _ _ None b [] H1 eq_refl)
    as [t2 H2].
  destruct (exec_cat_app (Lit (bytes "](/images/file_icons/")) _
    (bytes "](/images/file_icons/" ++ name ++ bytes ".svg)" ++ b)
    None _ [] _ _ _ (exec_lit_head _ _) H2) as [t3 H3].
  destruct (exec_plus_head is_lower alt
    (bytes "](/images/file_icons/" ++ name ++ bytes ".svg)" ++ b) Ha1 Ha2 eq_refl)
    as [t4 H4].
  destruct (exec_cat_app _ _ _ _ _ _ _ _ _ H4 H3) as [t5 H5].
  apply (exec_cat_app (Lit (bytes "![")) _
    (bytes "![" ++ alt ++ bytes "](/images/file_icons/" ++ name
     ++ bytes ".svg)" ++ b)
    None _ [] _ _ _ (exec_lit_head _ _) H5).
Qed.

(** X11: every file icon of the text, with an alternative text and an icon
    name of lower-case letters, is replaced where it stands by the document
    emoji, whatever the two names are. *)
Theorem file_icon_rewrite (a alt name b : list ascii) :
  alt ≠ [] → forallb is_lower alt = true →
  name ≠ [] → forallb is_lower name = true →
  rewrite_icon (a ++ bytes "![" ++ alt ++ bytes "](/images/file_icons/" ++ name
                ++ bytes ".svg)" ++ b)
  = rewrite_icon a ++ file_icon ++ rewrite_icon b.
Proof.
  intros Ha1 Ha2 Hn1 Hn2. unfold rewrite_icon at 1. unfold ReplaceAllString.
  rewrite scan_app.
  - f_equal. destruct (icon_exec alt name b) as [t Ht]; try done.
    pose proof (ReplaceAllString_head fileIconPattern [Text file_icon]
      (bytes "![" ++ alt ++ bytes "](/images/file_icons/" ++ name
       ++ bytes ".svg)") b None t) as H.
    rewrite <- !app_assoc in H. unfold ReplaceAllString in H. rewrite H.
    + unfold expand. cbn [fmap list_fmap expand_piece concat].
      by rewrite app_nil_r.
    + intros E. discriminate E.
    + exact Ht.
  - apply (re_splits_at "!"%char (bytes "[")). reflexivity.
Qed.

Lemma file_icon_rewrite_witness :
  rewrite_icon (bytes "- " ++ bytes "![" ++ bytes "pdf"
                ++ bytes "](/images/file_icons/" ++ bytes "pdf"
                ++ bytes ".svg)" ++ bytes "[report](report.pdf)")
  = rewrite_icon (bytes "- ") ++ file_icon
    ++ rewrite_icon (bytes "[report](report.pdf)").
Proof.
  apply (file_icon_rewrite (bytes "- ") (bytes "pdf") (bytes "pdf")
           (bytes "[report](report.pdf)")).
  - intros E. discriminate E.
  - reflexivity.
  - intros E. discriminate E.
  - reflexivity.
Defined.

(** ** Text the passes leave alone *)

Lemma Contains_false_ReplaceAll s old new :
  Contains s old = false → ReplaceAll s old new = s.
Proof.
  induction s as [|c s IH]; [done|]. simpl.
  intros [Hp Hc]%orb_false_elim.
  rewrite ReplaceAll_copy by done. by rewrite IH.
Qed.

(** X12: a text that holds none of the seven triggers (the opening [#{],
    the two URL prefixes, the opening [![], the two checkboxes and the
    guidance path) comes out of [fixLinks] as it went in. *)
Theorem fixLinks_plain_text (s : list ascii) :
  Contains s (bytes "#{") = false →
  Contains s file_prefix = false →
  Contains s (bytes "![") = false →
  Contains s img_prefix = false →
  Contains s (bytes "[ ]") = false →
  Contains s (bytes "[x]") = false →
  Contains s (bytes "/guidance/") = false →
  fixLinks s = s.
Proof.
  intros H1 H2 H3 H4 H5 H6 H7. unfold fixLinks.
  assert (rewrite_md s = s) as ->.
  { unfold rewrite_md, ReplaceAllString, mdLinkPattern.
    by apply Contains_false_quiet. }
  assert (rewrite_file s = s) as ->.
  { unfold rewrite_file, ReplaceAllString, fileLinkPattern.
    by apply (Contains_false_quiet file_prefix). }
  assert (rewrite_icon s = s) as ->.
  { unfold rewrite_icon, ReplaceAllString, fileIconPattern.
    by apply Contains_false_quiet. }
  assert (rewrite_img s = s) as ->.
  { unfold rewrite_img, ReplaceAllString, imgLinkPattern.
    by apply Contains_false_quiet. }
  unfold rewrite_unchecked, rewrite_checked, rewrite_guidance.
  rewrite (Contains_false_ReplaceAll s (bytes "[ ]")) by done.
  rewrite (Contains_false_ReplaceAll s (bytes "[x]")) by done.
  by rewrite (Contains_false_ReplaceAll s (bytes "/guidance/")).
Qed.

Lemma fixLinks_plain_text_witness :
  fixLinks (bytes "# Notes; see http://example.org/a#b (draft) [1]")
  = bytes "# Notes; see http://example.org/a#b (draft) [1]".
Proof.
  apply fixLinks_plain_text; reflexivity.
Defined.

(** X13: a text that holds no shortcode of the dictionary comes out of
    [fixEmoji] as it went in, in every iteration order; a word between colons
    that is no key stays. *)
Theorem fixEmoji_without_shortcode
    (order : list (list ascii * list ascii)) (s : list ascii) :
  iteration_order order →
  forallb (λ kv, negb (Contains s (shortcode kv.1))) emojiDict = true →
  fixEmoji_in order s = s.
Proof.
  intros Hord Hs. unfold fixEmoji_in.
  assert (∀ kv, kv ∈ order → Contains s (shortcode kv.1) = false) as H.
  { intros kv Hin. apply (order_elem order kv Hord) in Hin.
    rewrite forallb_forall in Hs. apply list_elem_of_In in Hin.
    by apply Hs, negb_true_iff in Hin. }
  clear Hord Hs. induction order as [|kv order IH]; [done|]. simpl.
  unfold emoji_step at 2.
  rewrite Contains_false_ReplaceAll by (apply H; set_solver).
  apply IH. intros kv' Hin. apply H. set_solver.
Qed.

Lemma fixEmoji_without_shortcode_witness :
  fixEmoji_in (reverse emojiDict) (bytes "at 10:30 :tada: :+2:")
  = bytes "at 10:30 :tada: :+2:".
Proof.
  apply fixEmoji_without_shortcode.
  - apply reverse_Permutation.
  - reflexivity.
Defined.

(** X14: on a text in which no colon closes one shortcode of the
    dictionary and opens another, [fixEmoji] in any iteration order gives
    what one walk from the left gives that replaces each shortcode of the
    dictionary by its glyph and copies every other byte. *)
Theorem fixEmoji_is_one_walk
    (order : list (list ascii * list ascii)) (s : list ascii) :
  iteration_order order → no_shared_colon s = true →
  fixEmoji_in order s = replace_shortcodes s.
Proof. apply fixEmoji_in_one_walk. Qed.

Lemma fixEmoji_is_one_walk_witness :
  fixEmoji_in (reverse emojiDict) (bytes ":sparkles: done :+1: :x:")
  = replace_shortcodes (bytes ":sparkles: done :+1: :x:").
Proof.
  apply fixEmoji_is_one_walk.
  - apply reverse_Permutation.
  - reflexivity.
Defined.

(** ** The guidance rule *)

Lemma delimited_splits_at c k new a z :
  c ∉ k → HasSuffix a (c :: k) = false →
  splits_at (lit_matcher (c :: k ++ [c]) new) a (c :: z).
Proof.
  intros Hc Ha a1 a2 -> Hne.
  assert (HasPrefix (a2 ++ c :: z) (c :: k ++ [c])
          = HasPrefix a2 (c :: k ++ [c])) as E.
  { destruct a2 as [|b0 a2]; [done|]. simpl.
    rewrite HasPrefix_closing by done.
    destruct (Ascii.eqb_spec c b0) as [<-|]; [|reflexivity]. simpl.
    rewrite bool_decide_eq_false_2; [by rewrite orb_false_r|].
    intros ->. apply HasSuffix_false in Ha. apply Ha. by exists a1. }
  split.
  - unfold lit_matcher. by rewrite E.
  - intros r n [Hp [_ ->]]%lit_matcher_Some. by apply HasPrefix_length.
Qed.

(** X15: a [/guidance/] that does not share its first slash with a
    [/guidance] in front of it is replaced where it stands by the URL of the
    help site, and the text on either side is rewritten on its own. *)
Theorem guidance_rewrite (a b : list ascii) :
  HasSuffix a (bytes "/guidance") = false →
  rewrite_guidance (a ++ bytes "/guidance/" ++ b)
  = rewrite_guidance a ++ guidance_url ++ rewrite_guidance b.
Proof.
  intros Ha. unfold rewrite_guidance at 1. unfold ReplaceAll.
  rewrite scan_app.
  - f_equal.
  - apply (delimited_splits_at "/"%char (bytes "guidance")); [absent|done].
Qed.

Lemma guidance_rewrite_witness :
  rewrite_guidance (bytes "[help](" ++ bytes "/guidance/" ++ bytes "start)")
  = rewrite_guidance (bytes "[help](") ++ guidance_url
    ++ rewrite_guidance (bytes "start)").
Proof.
  apply (guidance_rewrite (bytes "[help](") (bytes "start)")). reflexivity.
Defined.

(** ** Names that resolve to nothing *)
Section NotFound.
Variable path_Join : list ascii → list ascii → list ascii.
Variable ToLower : list ascii → list ascii.
Variable DetectContentType : list ascii → list ascii.
Variable markdown_ToHTML : list ascii → list ascii.
Variable indexTemplate : list document → list ascii.
Variable documentTemplate : list ascii → list ascii → list ascii.
Variable docCSS : list ascii.

(** X16: a GET request with a path in canonical form that passes the
    credential test is answered 404 when it asks for a Markdown name that
    [os.Stat] does not find, for an image name that is no key of the image
    index, or for any other name that is no key of the file index. *)
Theorem unknown_name_is_not_found fs order r g name :
  Method r = bytes "GET" → passes_auth g r = true →
  canonical_path (URLPath r) = true →
  URLPath r = bytes "/" ++ name →
  URLPath r ≠ bytes "/favicon.ico" → URLPath r ≠ bytes "/doc.css" →
  name ≠ [] →
  (if is_markdown_name ToLower name then
     Stat fs (path_Join (mdDir g) name) ≠ None
   else if is_image_name ToLower name then imgLinkToNameMap g !! name = None
   else fileLinkToNameMap g !! name = None) →
  (serve path_Join ToLower DetectContentType markdown_ToHTML indexTemplate
     documentTemplate docCSS fs order r g).1 = http_NotFound.
Proof.
  intros Hget Hauth _ Hpath Hfav Hcss Hne Hunknown.
  rewrite (serve_routes path_Join ToLower DetectContentType markdown_ToHTML
             indexTemplate documentTemplate docCSS fs order r g name)
    by done.
  destruct (is_markdown_name ToLower name).
  - unfold handleMarkdown, bind, gets, ret. simpl.
    by destruct (Stat fs (path_Join (mdDir g) name)).
  - destruct (is_image_name ToLower name).
    + unfold handleImage, bind, gets, ret. simpl. by rewrite Hunknown.
    + unfold handleFile, bind, gets, ret. simpl. by rewrite Hunknown.
Qed.
End NotFound.

Lemma unknown_name_is_not_found_witness :
  (example_serve example_fs_readable
     {| Method := bytes "GET"; URLPath := bytes "/1_a.png";
        BasicAuth := Some (bytes "admin", bytes "secret") |}
     example_globals).1 = http_NotFound.
Proof.
  unfold example_serve.
  apply (unknown_name_is_not_found example_join (λ s, s)
           (λ _, bytes "application/octet-stream") (λ md, md)
           (λ docs, concat (Title <$> docs)) (λ title html, title ++ html)
           (bytes "body{}") example_fs_readable emojiDict _ example_globals
           (bytes "1_a.png")).
  - reflexivity.
  - vm_compute. reflexivity.
  - reflexivity.
  - reflexivity.
  - intros E. discriminate E.
  - intros E. discriminate E.
  - intros E. discriminate E.
  - vm_compute. reflexivity.
Defined.

(** ** Title and body of a document *)



